(** * yojimbo_common.h: wire primitives of the yojimbo network library

    A shallow embedding of the integer helpers of [yojimbo_common.h]:
    wrap-aware sequence comparison, zig-zag coding, bit-width computation,
    byte swapping and the packet-sequence codec.

    Fixed-width C++ integers are integers of [Z] together with the
    conversion that the C++ type performs: [uint w] reduces modulo [2^w]
    (conversion to an unsigned type), [sint w] is the two's complement
    reading of the low [w] bits (conversion to a signed type on the
    targets the library supports). *)

From Stdlib Require Import ZArith Lia List Bool.
Import ListNotations.
Local Open Scope Z_scope.

(** ** Machine integers *)

Definition uint (w x : Z) : Z := x mod 2 ^ w.

Definition sint (w x : Z) : Z := (x + 2 ^ (w - 1)) mod 2 ^ w - 2 ^ (w - 1).

Definition uint16 := uint 16.
Definition uint32 := uint 32.
Definition uint64 := uint 64.
Definition int32 := sint 32.

Definition is_uint (w x : Z) : Prop := 0 <= x < 2 ^ w.
Definition is_sint (w x : Z) : Prop := - 2 ^ (w - 1) <= x < 2 ^ (w - 1).

Definition INT32_MIN : Z := - 2 ^ 31.
Definition INT32_MAX : Z := 2 ^ 31 - 1.

(** The integer types that [bswap], [host_to_network] and
    [network_to_host] are defined for. *)
Inductive uint_type : Set := uint16_t | uint32_t | uint64_t.

Definition width (T : uint_type) : Z :=
  match T with
  | uint16_t => 16
  | uint32_t => 32
  | uint64_t => 64
  end.

(** ** Bytes of an integer, least significant first *)

Fixpoint le_bytes (n : nat) (x : Z) : list Z :=
  match n with
  | O => []
  | S k => Z.land x 0xff :: le_bytes k (Z.shiftr x 8)
  end.

Fixpoint le_value (bs : list Z) : Z :=
  match bs with
  | [] => 0
  | b :: rest => Z.lor b (Z.shiftl (le_value rest) 8)
  end.

(** ** Compiler intrinsics

    [__builtin_popcount], [__builtin_clz], [__builtin_bswap32] and
    [__builtin_bswap64] are not part of the library; they are embedded as
    the compiler documents them.  [__builtin_popcount x] is the number of
    1-bits of [x].  [__builtin_clz x] is the number of leading 0-bits of
    [x], starting at the most significant of the 32 bit positions, and its
    result is undefined when [x] is 0: the embedding returns [None] there.
    [__builtin_bswap32] and [__builtin_bswap64] return their operand with
    the order of its 4 or 8 bytes reversed. *)

Fixpoint count_ones (n : nat) (x : Z) : Z :=
  match n with
  | O => 0
  | S k => Z.b2z (Z.testbit x (Z.of_nat k)) + count_ones k x
  end.

Definition builtin_popcount (x : Z) : Z := count_ones 32 x.

Fixpoint leading_zeros (n : nat) (x : Z) : Z :=
  match n with
  | O => 0
  | S k => if Z.testbit x (Z.of_nat k) then 0 else 1 + leading_zeros k x
  end.

Definition builtin_clz (x : Z) : option Z :=
  if x =? 0 then None else Some (leading_zeros 32 x).

Definition builtin_bswap (n : nat) (x : Z) : Z :=
  le_value (rev (le_bytes n x)).

Definition builtin_bswap32 : Z -> Z := builtin_bswap 4.
Definition builtin_bswap64 : Z -> Z := builtin_bswap 8.

(** ** Functions that depend on the build

    [gnuc] tells whether [__GNUC__] is defined for the build, [big_endian]
    is the value of [YOJIMBO_BIG_ENDIAN] (set by yojimbo_config.h). *)

Section Build.

Variable gnuc : bool.
Variable big_endian : bool.

(** *** Bit width (yojimbo_common.h, lines 229-279)

    All values are [uint32_t]; subtraction and addition wrap modulo
    [2^32]. *)

Definition popcount (x : Z) : Z :=
  if gnuc then builtin_popcount x
  else
    let a := uint32 (x - Z.land (Z.shiftr x 1) 0x55555555) in
    let b := uint32 (Z.land (Z.shiftr a 2) 0x33333333 + Z.land a 0x33333333) in
    let c := Z.land (uint32 (Z.shiftr b 4 + b)) 0x0f0f0f0f in
    let d := uint32 (c + Z.shiftr c 8) in
    let e := uint32 (d + Z.shiftr d 16) in
    let result := Z.land e 0x0000003f in
    result.

Definition log2 (x : Z) : Z :=
  let a := Z.lor x (Z.shiftr x 1) in
  let b := Z.lor a (Z.shiftr a 2) in
  let c := Z.lor b (Z.shiftr b 4) in
  let d := Z.lor c (Z.shiftr c 8) in
  let e := Z.lor d (Z.shiftr d 16) in
  let f := Z.shiftr e 1 in
  popcount f.

(** The result is an [int]; [None] stands for a call whose value the
    language leaves undefined. *)
Definition bits_required (min max : Z) : option Z :=
  if gnuc then
    match builtin_clz (uint32 (max - min)) with
    | Some z => Some (32 - z)
    | None => None
    end
  else
    Some (if min =? max then 0
          else int32 (uint32 (log2 (uint32 (max - min)) + 1))).

(** *** Byte order (yojimbo_common.h, lines 289-371) *)

Definition bswap64 (value : Z) : Z :=
  if gnuc then builtin_bswap64 value
  else
    let value :=
      Z.lor (uint64 (Z.shiftl (Z.land value 0x00000000FFFFFFFF) 32))
            (Z.shiftr (Z.land value 0xFFFFFFFF00000000) 32) in
    let value :=
      Z.lor (uint64 (Z.shiftl (Z.land value 0x0000FFFF0000FFFF) 16))
            (Z.shiftr (Z.land value 0xFFFF0000FFFF0000) 16) in
    let value :=
      Z.lor (uint64 (Z.shiftl (Z.land value 0x00FF00FF00FF00FF) 8))
            (Z.shiftr (Z.land value 0xFF00FF00FF00FF00) 8) in
    value.

Definition bswap32 (value : Z) : Z :=
  if gnuc then builtin_bswap32 value
  else
    Z.lor (Z.lor (Z.lor (uint32 (Z.shiftl (Z.land value 0x000000ff) 24))
                        (uint32 (Z.shiftl (Z.land value 0x0000ff00) 8)))
                 (Z.shiftr (Z.land value 0x00ff0000) 8))
          (Z.shiftr (Z.land value 0xff000000) 24).

(** The operand is promoted to [int]; the result is converted back to
    [uint16_t] on return. *)
Definition bswap16 (value : Z) : Z :=
  uint16 (Z.lor (Z.shiftl (Z.land value 0x00ff) 8)
                (Z.shiftr (Z.land value 0xff00) 8)).

(** Overload resolution of [bswap] on the type of its argument. *)
Definition bswap (T : uint_type) (value : Z) : Z :=
  match T with
  | uint16_t => bswap16 value
  | uint32_t => bswap32 value
  | uint64_t => bswap64 value
  end.

Definition host_to_network (T : uint_type) (value : Z) : Z :=
  if big_endian then bswap T value else value.

Definition network_to_host (T : uint_type) (value : Z) : Z :=
  if big_endian then bswap T value else value.

End Build.

(** ** Generic helpers (yojimbo_common.h, lines 50-57 and 92-135)

    [min], [max] and [clamp] are templates over a type with [<] and [>];
    they are embedded at the integer types, whose comparisons are those of
    [Z]. *)

Definition min (a b : Z) : Z := if a <? b then a else b.

Definition max (a b : Z) : Z := if a >? b then a else b.

Definition clamp (value a b : Z) : Z :=
  if value <? a then a
  else if value >? b then b
  else value.

(** [random_int]: [rand_value] is the value that the call of [rand ()]
    returns.  The arithmetic is that of [int].  [None] stands for a call
    that does not return: one of the three assertions fails, or the
    remainder is taken by zero. *)
Definition random_int (rand_value a b : Z) : option Z :=
  if a <? b then
    let n := int32 (int32 (b - a) + 1) in
    if n =? 0 then None
    else
      let result := int32 (a + Z.rem rand_value n) in
      if (result >=? a) && (result <=? b) then Some result else None
  else None.

(** ** Compile-time bit width (yojimbo_common.h, lines 175-217)

    The templates [PopCount], [Log2] and [BitsRequired]; each definition
    is the [result] member.  Inside the braces of each [enum] the
    enumerators have the type of their initialiser, [uint32_t].  The
    bounds of [BitsRequired] are [int64_t]; their difference is converted
    to [uint32_t]. *)

Definition PopCount (x : Z) : Z :=
  let a := uint32 (x - Z.land (Z.shiftr x 1) 0x55555555) in
  let b := uint32 (Z.land (Z.shiftr a 2) 0x33333333 + Z.land a 0x33333333) in
  let c := Z.land (uint32 (Z.shiftr b 4 + b)) 0x0f0f0f0f in
  let d := uint32 (c + Z.shiftr c 8) in
  let e := uint32 (d + Z.shiftr d 16) in
  Z.land e 0x0000003f.

Definition Log2 (x : Z) : Z :=
  let a := Z.lor x (Z.shiftr x 1) in
  let b := Z.lor a (Z.shiftr a 2) in
  let c := Z.lor b (Z.shiftr b 4) in
  let d := Z.lor c (Z.shiftr c 8) in
  let e := Z.lor d (Z.shiftr d 16) in
  let f := Z.shiftr e 1 in
  PopCount f.

Definition BitsRequired (min max : Z) : Z :=
  if min =? max then 0
  else uint32 (Log2 (uint32 (sint 64 (max - min))) + 1).

(** ** Sequence comparison (yojimbo_common.h, lines 390-416)

    Both operands are [uint16_t]; the comparisons and the subtractions are
    carried out after integral promotion to [int], so no subtraction wraps. *)

Definition sequence_greater_than (s1 s2 : Z) : bool :=
  ((s1 >? s2) && (s1 - s2 <=? 32768)) ||
  ((s1 <? s2) && (s2 - s1 >? 32768)).

Definition sequence_less_than (s1 s2 : Z) : bool :=
  sequence_greater_than s2 s1.

(** ** Zig-zag coding (yojimbo_common.h, lines 428-446)

    [signed_to_unsigned] computes in [int]: the left shift keeps the low 32
    bits, the right shift is arithmetic, and the result is returned as an
    [int].  [unsigned_to_signed] takes a [uint32_t]; the operand
    [-int32_t( n & 1 )] is converted to [uint32_t] by the exclusive or, and
    the [uint32_t] result is converted to the [int] return type. *)

Definition signed_to_unsigned (n : Z) : Z :=
  int32 (Z.lxor (int32 (Z.shiftl n 1)) (Z.shiftr n 31)).

Definition unsigned_to_signed (n : Z) : Z :=
  int32 (Z.lxor (Z.shiftr n 1) (uint32 (- int32 (Z.land n 1)))).

(** ** Packet sequence codec (yojimbo_common.h, lines 448-452)

    The header declares [compress_packet_sequence],
    [get_packet_sequence_bytes] and [decompress_packet_sequence]; their
    bodies are not in the header.  The three out-parameters of
    [compress_packet_sequence] are the fields of its result. *)

Record compressed_sequence : Set := {
  prefix_byte : Z;
  num_sequence_bytes : Z;
  sequence_bytes : list Z
}.

(** Modelled from the spec: the body of [compress_packet_sequence] is
    missing, and so is the byte-count ladder it uses.  The spec suggests a
    ladder of 1 to 8 payload bytes and asks for "the minimum needed to
    reconstruct [sequence]": the count is the least [n] in 1..8 with
    [sequence < 2 ^ (8 * n)], found by dropping low bytes at most [more]
    times. *)
Fixpoint sequence_byte_count (more : nat) (sequence : Z) : nat :=
  match more with
  | O => 1
  | S k =>
      if sequence <? 256 then 1%nat
      else S (sequence_byte_count k (Z.shiftr sequence 8))
  end.

(** Modelled from the spec: the body of [compress_packet_sequence] is
    missing.  The prefix byte "indicates how many subsequent bytes carry
    the sequence value"; the payload holds that many bytes of [sequence]
    in network (little-endian) byte order. *)
Definition compress_packet_sequence (sequence : Z) : compressed_sequence :=
  let n := sequence_byte_count 7 sequence in
  {| prefix_byte := Z.of_nat n;
     num_sequence_bytes := Z.of_nat n;
     sequence_bytes := le_bytes n sequence |}.

(** Modelled from the spec: the body of [get_packet_sequence_bytes] is
    missing.  It is the "pure lookup" from a prefix byte to the payload
    byte count that [compress_packet_sequence] chose for it. *)
Definition get_packet_sequence_bytes (prefix_byte : Z) : Z := prefix_byte.

(** Modelled from the spec: the body of [decompress_packet_sequence] is
    missing.  It reads [get_packet_sequence_bytes prefix_byte] bytes from
    the front of the buffer and assembles them in network (little-endian)
    byte order. *)
Definition decompress_packet_sequence (prefix_byte : Z)
  (sequence_bytes : list Z) : Z :=
  le_value
    (firstn (Z.to_nat (get_packet_sequence_bytes prefix_byte)) sequence_bytes).

(** ** Specification vocabulary *)

(** [k] is the smallest number of bits such that [2 ^ k > d]. *)
Definition smallest_width (d k : Z) : Prop :=
  0 <= k /\ d < 2 ^ k /\ forall j, 0 <= j -> d < 2 ^ j -> k <= j.

(** Invariant of the bit smear in [log2]: after smearing by a total
    distance [m], the [m] bits at and below the top bit [k] are set and
    nothing above [k] is. *)
Definition smeared (k m v : Z) : Prop :=
  (forall i, k < i -> Z.testbit v i = false) /\
  (forall i, 0 <= i -> k - m < i <= k -> Z.testbit v i = true).

(** Position, in a value of [n] bytes, of the bit that byte reversal
    moves to position [i]. *)
Definition byte_mirror (n i : Z) : Z := 8 * (n - 1 - i / 8) + i mod 8.

(** The value of a list of bytes, least significant first, as a sum. *)
Fixpoint le_sum (bs : list Z) : Z :=
  match bs with
  | [] => 0
  | b :: rest => b + 256 * le_sum rest
  end.

(** The first two steps of the portable [popcount] on one byte: the bit
    counts of the four bit pairs, then of the two nibbles. *)
Definition pairs8 (y : Z) : Z := y - Z.land (Z.shiftr y 1) 0x55.

Definition nibbles8 (y : Z) : Z := Z.land (Z.shiftr y 2) 0x33 + Z.land y 0x33.

Definition popcount8 (y : Z) : Z :=
  nibbles8 (pairs8 y) / 16 + nibbles8 (pairs8 y) mod 16.

Definition popcount8_checks (y : Z) : bool :=
  (0 <=? pairs8 y) && (pairs8 y <? 256) &&
  (0 <=? nibbles8 (pairs8 y)) &&
  (nibbles8 (pairs8 y) / 16 <=? 4) && (nibbles8 (pairs8 y) mod 16 <=? 4) &&
  (popcount8 y =? count_ones 8 y).

(** * Properties *)

(** ** The functions on concrete inputs *)

Example sequence_greater_than_examples :
  sequence_greater_than 1 0 = true /\
  sequence_greater_than 0 1 = false /\
  sequence_greater_than 0 65535 = true /\
  sequence_greater_than 65535 0 = false /\
  sequence_greater_than 0 32768 = false /\
  sequence_greater_than 32768 0 = true.
Proof. repeat split. Qed.

Example zig_zag_examples :
  map signed_to_unsigned [0; -1; 1; -2; 2] = [0; 1; 2; 3; 4] /\
  map unsigned_to_signed [0; 1; 2; 3; 4] = [0; -1; 1; -2; 2] /\
  signed_to_unsigned INT32_MAX = -2 /\
  uint32 (signed_to_unsigned INT32_MAX) = 0xFFFFFFFE /\
  uint32 (signed_to_unsigned INT32_MIN) = 0xFFFFFFFF /\
  unsigned_to_signed 0xFFFFFFFF = INT32_MIN.
Proof. repeat split. Qed.

Example popcount_log2_examples :
  popcount false 0xF0F00F01 = 13 /\ popcount true 0xF0F00F01 = 13 /\
  popcount false 0xFFFFFFFF = 32 /\ popcount true 0xFFFFFFFF = 32 /\
  log2 false 1 = 0 /\ log2 false 255 = 7 /\ log2 false 256 = 8 /\
  log2 true 0x80000000 = 31 /\ log2 false 0xFFFFFFFF = 31.
Proof. vm_compute. repeat split. Qed.

Example bits_required_examples :
  bits_required false 0 1 = Some 1 /\ bits_required true 0 1 = Some 1 /\
  bits_required false 0 255 = Some 8 /\ bits_required true 0 255 = Some 8 /\
  bits_required false 10 266 = Some 9 /\ bits_required true 10 266 = Some 9 /\
  bits_required false 0 0xFFFFFFFF = Some 32 /\
  bits_required true 0 0xFFFFFFFF = Some 32 /\
  bits_required false 7 7 = Some 0 /\ bits_required true 7 7 = None.
Proof. vm_compute. repeat split. Qed.

Example bswap_examples :
  bswap16 0x0102 = 0x0201 /\
  bswap32 false 0x01020304 = 0x04030201 /\
  bswap32 true 0x01020304 = 0x04030201 /\
  bswap64 false 0x0102030405060708 = 0x0807060504030201 /\
  bswap64 true 0x0102030405060708 = 0x0807060504030201 /\
  host_to_network false true uint16_t 0x0102 = 0x0201 /\
  host_to_network false false uint16_t 0x0102 = 0x0102.
Proof. vm_compute. repeat split. Qed.

Example compress_packet_sequence_examples :
  compress_packet_sequence 0 =
    {| prefix_byte := 1; num_sequence_bytes := 1; sequence_bytes := [0] |} /\
  compress_packet_sequence 255 =
    {| prefix_byte := 1; num_sequence_bytes := 1; sequence_bytes := [255] |} /\
  compress_packet_sequence 256 =
    {| prefix_byte := 2; num_sequence_bytes := 2; sequence_bytes := [0; 1] |} /\
  compress_packet_sequence 0x010203 =
    {| prefix_byte := 3; num_sequence_bytes := 3;
       sequence_bytes := [3; 2; 1] |} /\
  num_sequence_bytes (compress_packet_sequence (2 ^ 64 - 1)) = 8 /\
  decompress_packet_sequence 3 [3; 2; 1; 77] = 0x010203.
Proof. vm_compute. repeat split. Qed.

(** ** Machine integers *)

Lemma uint_range w x : 0 <= w -> is_uint w (uint w x).
Proof.
  intros Hw. unfold is_uint, uint.
  apply Z.mod_pos_bound. apply Z.pow_pos_nonneg; lia.
Qed.

Lemma uint_small w x : is_uint w x -> uint w x = x.
Proof. intros H. apply Z.mod_small. exact H. Qed.

Lemma sint_small w x : 0 < w -> is_sint w x -> sint w x = x.
Proof.
  unfold is_sint, sint. intros Hw H.
  assert (E : 2 ^ w = 2 * 2 ^ (w - 1)).
  { replace w with (Z.succ (w - 1)) at 1 by lia. apply Z.pow_succ_r. lia. }
  rewrite Z.mod_small; lia.
Qed.

Lemma testbit_above w x i :
  is_uint w x -> 0 <= w <= i -> Z.testbit x i = false.
Proof.
  intros Hx Hi. rewrite <- (Z.mod_small x (2 ^ w)) by exact Hx.
  apply Z.mod_pow2_bits_high. lia.
Qed.

Lemma is_uint_iff_bits w v :
  0 <= w ->
  is_uint w v <-> 0 <= v /\ forall i, w <= i -> Z.testbit v i = false.
Proof.
  intros Hw. split.
  - intros H. split; [apply H |].
    intros i Hi. apply (testbit_above w v i H). lia.
  - intros [Hv Hb].
    assert (E : v mod 2 ^ w = v).
    { apply Z.bits_inj'. intros i Hi.
      destruct (Z.lt_ge_cases i w).
      - apply Z.mod_pow2_bits_low. assumption.
      - rewrite Z.mod_pow2_bits_high, Hb by lia. reflexivity. }
    rewrite <- E. apply (uint_range w v Hw).
Qed.

Lemma uint_bits_ext w x y :
  0 <= w -> is_uint w x -> is_uint w y ->
  (forall i, 0 <= i < w -> Z.testbit x i = Z.testbit y i) -> x = y.
Proof.
  intros Hw Hx Hy H. apply Z.bits_inj'. intros i Hi.
  destruct (Z.lt_ge_cases i w).
  - apply H. lia.
  - rewrite (testbit_above w x i), (testbit_above w y i) by (assumption || lia).
    reflexivity.
Qed.

Lemma is_uint_lor w a b :
  0 <= w -> is_uint w a -> is_uint w b -> is_uint w (Z.lor a b).
Proof.
  intros Hw Ha Hb.
  apply (is_uint_iff_bits w _ Hw) in Ha. apply (is_uint_iff_bits w _ Hw) in Hb.
  apply (is_uint_iff_bits w _ Hw). split.
  - apply Z.lor_nonneg. split; [apply Ha | apply Hb].
  - intros i Hi. rewrite Z.lor_spec.
    rewrite (proj2 Ha i Hi), (proj2 Hb i Hi). reflexivity.
Qed.

Lemma is_uint_land_r w v m :
  0 <= w -> is_uint w m -> is_uint w (Z.land v m).
Proof.
  intros Hw Hm. apply (is_uint_iff_bits w _ Hw) in Hm.
  apply (is_uint_iff_bits w _ Hw). split.
  - apply Z.land_nonneg. right. apply Hm.
  - intros i Hi. rewrite Z.land_spec, (proj2 Hm i Hi). apply andb_false_r.
Qed.

Lemma is_uint_shiftr w v s :
  0 <= w -> 0 <= s -> is_uint w v -> is_uint w (Z.shiftr v s).
Proof.
  intros Hw Hs Hv. apply (is_uint_iff_bits w _ Hw) in Hv.
  apply (is_uint_iff_bits w _ Hw). split.
  - apply Z.shiftr_nonneg. apply Hv.
  - intros i Hi. rewrite Z.shiftr_spec by lia. apply Hv. lia.
Qed.

Lemma is_uint_shiftl w v s :
  0 <= w -> 0 <= s -> is_uint w v -> is_uint (w + s) (Z.shiftl v s).
Proof.
  intros Hw Hs Hv. apply (is_uint_iff_bits w _ Hw) in Hv.
  apply is_uint_iff_bits; [lia |]. split.
  - apply Z.shiftl_nonneg. apply Hv.
  - intros i Hi. rewrite Z.shiftl_spec by lia. apply Hv. lia.
Qed.

Lemma is_uint_mono w w' v :
  0 <= w <= w' -> is_uint w v -> is_uint w' v.
Proof.
  intros Hw [H0 H1]. split; [exact H0 |].
  apply Z.lt_le_trans with (2 ^ w); [exact H1 |].
  apply Z.pow_le_mono_r; lia.
Qed.

Lemma is_uint_shiftr_sub w v s :
  0 <= s <= w -> is_uint w v -> is_uint (w - s) (Z.shiftr v s).
Proof.
  intros Hs Hv. apply (is_uint_iff_bits w) in Hv; [| lia].
  apply is_uint_iff_bits; [lia |]. split.
  - apply Z.shiftr_nonneg. apply Hv.
  - intros i Hi. rewrite Z.shiftr_spec by lia. apply Hv. lia.
Qed.

Lemma is_uint_shiftr_inv w v s :
  0 <= w -> 0 <= s -> 0 <= v ->
  is_uint w (Z.shiftr v s) -> is_uint (w + s) v.
Proof.
  intros Hw Hs Hv H. apply (is_uint_iff_bits w _ Hw) in H.
  apply is_uint_iff_bits; [lia |]. split; [exact Hv |].
  intros i Hi. replace i with (i - s + s) by lia.
  rewrite <- Z.shiftr_spec by lia. apply H. lia.
Qed.

Create HintDb uint_range.

#[local] Hint Resolve uint_range is_uint_lor is_uint_shiftr is_uint_land_r
  : uint_range.
#[local] Hint Extern 1 (_ <= _) => lia : uint_range.
#[local] Hint Extern 2 (is_uint _ _) => (unfold is_uint; lia) : uint_range.

(** Properties of all indices below a literal bound, case by case. *)

Lemma Z_below_forallb (P : Z -> bool) (n : nat) :
  forallb P (map Z.of_nat (seq 0 n)) = true ->
  forall k, 0 <= k < Z.of_nat n -> P k = true.
Proof.
  intros H k Hk. rewrite forallb_forall in H. apply H.
  rewrite <- (Z2Nat.id k) by lia. apply in_map. apply in_seq. lia.
Qed.

Lemma Z_below_cases (P : Z -> Prop) (n : nat) :
  Forall P (map Z.of_nat (seq 0 n)) ->
  forall i, 0 <= i < Z.of_nat n -> P i.
Proof.
  intros H i Hi. rewrite Forall_forall in H. apply H.
  rewrite <- (Z2Nat.id i) by lia. apply in_map. apply in_seq. lia.
Qed.

(** ** Sequence comparison *)

Ltac seq_cases :=
  unfold sequence_less_than, sequence_greater_than;
  repeat match goal with
         | |- context [?a >? ?b] => rewrite (Z.gtb_ltb a b)
         | |- context [?a <? ?b] => destruct (Z.ltb_spec a b)
         | |- context [?a <=? ?b] => destruct (Z.leb_spec a b)
         end;
  simpl; try reflexivity; try lia.

Lemma sequence_greater_than_true_iff s1 s2 :
  sequence_greater_than s1 s2 = true <->
  (s2 < s1 /\ s1 - s2 <= 32768) \/ (s1 < s2 /\ 32768 < s2 - s1).
Proof.
  unfold sequence_greater_than.
  rewrite orb_true_iff, !andb_true_iff, !Z.gtb_ltb, !Z.ltb_lt, Z.leb_le.
  tauto.
Qed.

(** Counterexample to C2 as stated: in the upper half of the sequence
    space the tie resolves to "greater"; 32768 compared with 0 is greater. *)
Lemma sequence_greater_than_tie_upper_half :
  is_uint 16 32768 /\
  sequence_greater_than 32768 ((32768 + 32768) mod 65536) <> false.
Proof. split; [unfold is_uint; lia | discriminate]. Qed.

(** C2 (amended): at the half-way distance of 32768 the comparison
    [sequence_greater_than s ((s + 32768) mod 65536)] is false exactly
    when [s < 32768] and true when [s >= 32768]: of two sequence numbers
    32768 apart the numerically larger one is the greater one. *)
Theorem sequence_greater_than_tie s :
  is_uint 16 s ->
  sequence_greater_than s ((s + 32768) mod 65536) = (32768 <=? s).
Proof.
  unfold is_uint. intros Hs. change (2 ^ 16) with 65536 in Hs.
  destruct (Z.leb_spec 32768 s) as [Hhi | Hlo].
  - replace ((s + 32768) mod 65536) with (s - 32768).
    + apply sequence_greater_than_true_iff. lia.
    + apply Z.mod_unique with (q := 1); lia.
  - rewrite Z.mod_small by lia.
    apply not_true_is_false. rewrite sequence_greater_than_true_iff. lia.
Qed.

Lemma sequence_greater_than_tie_witness :
  sequence_greater_than 7 ((7 + 32768) mod 65536) = (32768 <=? 7).
Proof.
  apply (sequence_greater_than_tie 7). unfold is_uint. lia.
Defined.

(** C7: adjacent sequence numbers compare in cyclic order across the
    0/65535 wrap: [sequence_greater_than 1 0], [sequence_greater_than 0
    65535] and [sequence_less_than 0 1] hold while the opposite
    comparisons fail; for every [uint16] sequence number [s] its
    successor [(s + 1) mod 65536] is greater than [s] and [s] is less
    than it, never the other way round; and [sequence_less_than s1 s2] is
    [sequence_greater_than s2 s1] for every pair. *)
Theorem sequence_compare_adjacent :
  (sequence_greater_than 1 0 = true /\
   sequence_greater_than 0 1 = false) /\
  (sequence_greater_than 0 65535 = true /\
   sequence_greater_than 65535 0 = false) /\
  (sequence_less_than 0 1 = true /\
   sequence_less_than 1 0 = false) /\
  (sequence_less_than 65535 0 = true /\
   sequence_less_than 0 65535 = false) /\
  (forall s, is_uint 16 s ->
     sequence_greater_than ((s + 1) mod 65536) s = true /\
     sequence_greater_than s ((s + 1) mod 65536) = false /\
     sequence_less_than s ((s + 1) mod 65536) = true /\
     sequence_less_than ((s + 1) mod 65536) s = false) /\
  (forall s1 s2, sequence_less_than s1 s2 = sequence_greater_than s2 s1).
Proof.
  repeat apply conj; try reflexivity.
  intros s Hs. unfold is_uint in Hs. change (2 ^ 16) with 65536 in Hs.
  unfold sequence_less_than.
  repeat apply conj;
    try apply not_true_is_false;
    rewrite sequence_greater_than_true_iff;
    Z.div_mod_to_equations; lia.
Qed.

Lemma sequence_compare_adjacent_witness :
  sequence_greater_than ((65535 + 1) mod 65536) 65535 = true /\
  sequence_greater_than 65535 ((65535 + 1) mod 65536) = false /\
  sequence_less_than 65535 ((65535 + 1) mod 65536) = true /\
  sequence_less_than ((65535 + 1) mod 65536) 65535 = false.
Proof.
  destruct sequence_compare_adjacent as (_ & _ & _ & _ & Hnext & _).
  apply (Hnext 65535). unfold is_uint. lia.
Defined.

(** C9: [sequence_greater_than] is irreflexive, and of two distinct
    sequence numbers exactly one is greater than the other; when they are
    32768 apart it is the numerically larger one. *)
Theorem sequence_greater_than_irreflexive_total :
  (forall s, sequence_greater_than s s = false) /\
  (forall s1 s2, s1 <> s2 ->
     sequence_greater_than s1 s2 = negb (sequence_greater_than s2 s1)) /\
  (forall s1 s2, s1 - s2 = 32768 ->
     sequence_greater_than s1 s2 = true /\
     sequence_greater_than s2 s1 = false).
Proof.
  split; [| split].
  - intros s. seq_cases.
  - intros s1 s2 Hne. seq_cases.
  - intros s1 s2 Hd. split; seq_cases.
Qed.

Lemma sequence_greater_than_irreflexive_total_witness :
  sequence_greater_than 0 32768 = negb (sequence_greater_than 32768 0) /\
  sequence_greater_than 32768 0 = true /\
  sequence_greater_than 0 32768 = false.
Proof.
  destruct sequence_greater_than_irreflexive_total as [_ [Hx Hh]].
  split.
  - apply (Hx 0 32768). discriminate.
  - apply (Hh 32768 0). reflexivity.
Defined.

(** ** Zig-zag coding *)

Lemma int32_bounds n : is_sint 32 n <-> - 2147483648 <= n < 2147483648.
Proof. unfold is_sint. change (2 ^ (32 - 1)) with 2147483648. tauto. Qed.

Lemma uint32_bounds n : is_uint 32 n <-> 0 <= n < 4294967296.
Proof. unfold is_uint. change (2 ^ 32) with 4294967296. tauto. Qed.

Lemma int32_eq x : int32 x = (x + 2147483648) mod 4294967296 - 2147483648.
Proof. reflexivity. Qed.

Lemma uint32_eq x : uint32 x = x mod 4294967296.
Proof. reflexivity. Qed.

Lemma lxor_m1 x : Z.lxor x (-1) = - x - 1.
Proof. rewrite Z.lxor_m1_r. unfold Z.lnot. lia. Qed.

Lemma sign_fill n : is_sint 32 n -> Z.shiftr n 31 = if n <? 0 then -1 else 0.
Proof.
  rewrite int32_bounds. intros H.
  rewrite Z.shiftr_div_pow2 by lia. change (2 ^ 31) with 2147483648.
  destruct (Z.ltb_spec n 0).
  - symmetry. apply Z.div_unique with (r := n + 2147483648); lia.
  - apply Z.div_small. lia.
Qed.

Ltac int32_arith :=
  rewrite ?int32_eq, ?uint32_eq in *;
  rewrite ?int32_bounds, ?uint32_bounds in *;
  Z.div_mod_to_equations; lia.

(** The value returned by [signed_to_unsigned], read as an [int]. *)
Lemma signed_to_unsigned_int n :
  is_sint 32 n ->
  signed_to_unsigned n = int32 (if n <? 0 then - 2 * n - 1 else 2 * n).
Proof.
  intros H. unfold signed_to_unsigned.
  rewrite (sign_fill n H), Z.shiftl_mul_pow2 by lia.
  change (2 ^ 1) with 2.
  destruct (Z.ltb_spec n 0).
  - rewrite lxor_m1. int32_arith.
  - rewrite Z.lxor_0_r. int32_arith.
Qed.

Lemma signed_to_unsigned_uint32 n :
  is_sint 32 n ->
  uint32 (signed_to_unsigned n) = if n <? 0 then 2 * Z.abs n - 1 else 2 * n.
Proof.
  intros H. rewrite (signed_to_unsigned_int n H).
  destruct (Z.ltb_spec n 0); int32_arith.
Qed.

Lemma lxor_ones_low w x :
  0 <= w -> is_uint w x -> Z.lxor x (Z.ones w) = Z.ones w - x.
Proof.
  intros Hw Hx.
  assert (D : Z.land x (Z.lxor x (Z.ones w)) = 0).
  { apply Z.bits_inj'. intros i Hi.
    rewrite Z.land_spec, Z.lxor_spec, Z.bits_0.
    destruct (Z.lt_ge_cases i w) as [Hlo | Hhi].
    - rewrite Z.ones_spec_low by lia. destruct (Z.testbit x i); reflexivity.
    - rewrite (testbit_above w x i Hx) by lia. reflexivity. }
  apply Z.add_nocarry_lxor in D.
  rewrite <- Z.lxor_assoc, Z.lxor_nilpotent, Z.lxor_0_l in D. lia.
Qed.

(** The value returned by [unsigned_to_signed]. *)
Lemma unsigned_to_signed_int u :
  is_uint 32 u ->
  unsigned_to_signed u = if u mod 2 =? 0 then u / 2 else - (u / 2) - 1.
Proof.
  intros H. unfold unsigned_to_signed.
  change 1 with (Z.ones 1) at 2. rewrite Z.land_ones by lia.
  rewrite Z.shiftr_div_pow2 by lia. change (2 ^ 1) with 2.
  pose proof (Z.mod_pos_bound u 2 ltac:(lia)) as Hm.
  destruct (Z.eqb_spec (u mod 2) 0) as [E | E].
  - rewrite E. change (uint32 (- int32 0)) with 0.
    rewrite Z.lxor_0_r. int32_arith.
  - replace (u mod 2) with 1 by lia.
    change (uint32 (- int32 1)) with (Z.ones 32).
    rewrite lxor_ones_low; [| lia |].
    + change (Z.ones 32) with 4294967295. int32_arith.
    + int32_arith.
Qed.

Lemma unsigned_to_signed_range u :
  is_uint 32 u -> is_sint 32 (unsigned_to_signed u).
Proof.
  intros H. rewrite (unsigned_to_signed_int u H).
  destruct (Z.eqb_spec (u mod 2) 0); int32_arith.
Qed.

(** C5: decoding the zig-zag code of any [int32] value gives the value
    back, in particular at [INT32_MIN], [INT32_MAX], 0, -1 and 1.  The
    [int] returned by [signed_to_unsigned] is converted to the [uint32_t]
    parameter of [unsigned_to_signed]. *)
Theorem unsigned_to_signed_signed_to_unsigned n :
  is_sint 32 n ->
  unsigned_to_signed (uint32 (signed_to_unsigned n)) = n.
Proof.
  intros H.
  assert (Hu : is_uint 32 (uint32 (signed_to_unsigned n))).
  { apply uint_range. lia. }
  rewrite (unsigned_to_signed_int _ Hu).
  rewrite (signed_to_unsigned_uint32 n H).
  apply -> int32_bounds in H.
  destruct (Z.ltb_spec n 0).
  - replace (2 * Z.abs n - 1) with (1 + (- n - 1) * 2) by lia.
    rewrite Z.mod_add, Z.div_add by lia. simpl. lia.
  - replace (2 * n) with (0 + n * 2) by lia.
    rewrite Z.mod_add, Z.div_add by lia. simpl. lia.
Qed.

Lemma unsigned_to_signed_signed_to_unsigned_witness :
  unsigned_to_signed (uint32 (signed_to_unsigned INT32_MIN)) = INT32_MIN /\
  unsigned_to_signed (uint32 (signed_to_unsigned INT32_MAX)) = INT32_MAX /\
  unsigned_to_signed (uint32 (signed_to_unsigned 0)) = 0 /\
  unsigned_to_signed (uint32 (signed_to_unsigned (-1))) = -1 /\
  unsigned_to_signed (uint32 (signed_to_unsigned 1)) = 1.
Proof.
  repeat apply conj; apply unsigned_to_signed_signed_to_unsigned;
    unfold is_sint, INT32_MIN, INT32_MAX; lia.
Defined.

(** C8: read as a [uint32_t], [signed_to_unsigned n] is [2 * n] for
    [n >= 0] and [2 * |n| - 1] for [n < 0]; so 0, -1, 1, -2 are sent to
    0, 1, 2, 3. *)
Theorem signed_to_unsigned_small_magnitude :
  signed_to_unsigned 0 = 0 /\
  signed_to_unsigned (-1) = 1 /\
  signed_to_unsigned 1 = 2 /\
  signed_to_unsigned (-2) = 3 /\
  (forall n, is_sint 32 n -> 0 <= n ->
     uint32 (signed_to_unsigned n) = 2 * n) /\
  (forall n, is_sint 32 n -> n < 0 ->
     uint32 (signed_to_unsigned n) = 2 * Z.abs n - 1).
Proof.
  repeat split; intros n H Hn; rewrite (signed_to_unsigned_uint32 n H);
    destruct (Z.ltb_spec n 0); lia.
Qed.

Lemma signed_to_unsigned_small_magnitude_witness :
  uint32 (signed_to_unsigned INT32_MAX) = 2 * INT32_MAX /\
  uint32 (signed_to_unsigned INT32_MIN) = 2 * Z.abs INT32_MIN - 1.
Proof.
  destruct signed_to_unsigned_small_magnitude as [_ [_ [_ [_ [Hp Hn]]]]].
  split.
  - apply (Hp INT32_MAX); unfold is_sint, INT32_MAX; lia.
  - apply (Hn INT32_MIN); unfold is_sint, INT32_MIN; lia.
Defined.

(** C10: encoding the zig-zag decoding of any [uint32] value gives the
    value back (the [int] result read as a [uint32_t]), so the two maps are
    inverse bijections between the 32-bit unsigned and signed ranges. *)
Theorem signed_to_unsigned_unsigned_to_signed u :
  is_uint 32 u ->
  uint32 (signed_to_unsigned (unsigned_to_signed u)) = u.
Proof.
  intros H.
  rewrite (signed_to_unsigned_uint32 _ (unsigned_to_signed_range u H)).
  rewrite (unsigned_to_signed_int u H).
  apply -> uint32_bounds in H.
  destruct (Z.eqb_spec (u mod 2) 0);
    match goal with
    | |- context [?a <? 0] => destruct (Z.ltb_spec a 0)
    end; Z.div_mod_to_equations; lia.
Qed.

Lemma signed_to_unsigned_unsigned_to_signed_witness :
  uint32 (signed_to_unsigned (unsigned_to_signed 4294967295)) = 4294967295 /\
  uint32 (signed_to_unsigned (unsigned_to_signed 0)) = 0.
Proof.
  split; apply signed_to_unsigned_unsigned_to_signed; unfold is_uint; lia.
Defined.

(** ** Bit width *)

Lemma popcount_ones gnuc k :
  0 <= k < 32 -> popcount gnuc (Z.ones k) = k.
Proof.
  intros Hk. apply Z.eqb_eq.
  apply (Z_below_forallb (fun k => popcount gnuc (Z.ones k) =? k) 32);
    [destruct gnuc; vm_compute; reflexivity | lia].
Qed.

Lemma smeared_step k m v :
  0 <= m -> smeared k m v -> smeared k (2 * m) (Z.lor v (Z.shiftr v m)).
Proof.
  intros Hm [Hhi Hlo]. split.
  - intros i Hi. rewrite Z.lor_spec.
    destruct (Z.neg_nonneg_cases i) as [Hn | Hn].
    + rewrite !Z.testbit_neg_r by assumption. reflexivity.
    + rewrite Z.shiftr_spec by assumption.
      rewrite !Hhi by lia. reflexivity.
  - intros i Hi Hr. rewrite Z.lor_spec, Z.shiftr_spec by assumption.
    destruct (Z.lt_ge_cases (k - m) i).
    + rewrite (Hlo i) by lia. reflexivity.
    + rewrite (Hlo (i + m)) by lia. apply orb_true_r.
Qed.

Lemma smeared_init x :
  0 < x -> smeared (Z.log2 x) 1 x.
Proof.
  intros Hx. split.
  - intros i Hi. apply Z.bits_above_log2; lia.
  - intros i Hi Hr. replace i with (Z.log2 x) by lia.
    apply Z.bit_log2. assumption.
Qed.

Lemma smeared_all k v :
  0 <= k < 32 -> smeared k 32 v -> v = Z.ones (k + 1).
Proof.
  intros Hk [Hhi Hlo]. apply Z.bits_inj'. intros i Hi.
  destruct (Z.lt_ge_cases k i).
  - rewrite Hhi, Z.ones_spec_high by lia. reflexivity.
  - rewrite Hlo, Z.ones_spec_low by lia. reflexivity.
Qed.

Lemma shiftr_ones k : 0 <= k -> Z.shiftr (Z.ones (k + 1)) 1 = Z.ones k.
Proof.
  intros Hk. apply Z.bits_inj'. intros i Hi.
  rewrite Z.shiftr_spec by assumption.
  destruct (Z.lt_ge_cases i k).
  - rewrite !Z.ones_spec_low by lia. reflexivity.
  - rewrite !Z.ones_spec_high by lia. reflexivity.
Qed.

Lemma log2_uint32 x :
  is_uint 32 x -> 0 < x -> 0 <= Z.log2 x < 32.
Proof.
  intros [_ Hx] Hpos. split.
  - apply Z.log2_nonneg.
  - apply Z.log2_lt_pow2; assumption.
Qed.

(** [log2] is the integer base-2 logarithm on positive [uint32_t] values,
    with either population count. *)
Lemma log2_correct gnuc x :
  is_uint 32 x -> 0 < x -> log2 gnuc x = Z.log2 x.
Proof.
  intros Hx Hpos. pose proof (log2_uint32 x Hx Hpos) as Hk.
  unfold log2.
  pose proof (smeared_init x Hpos) as S1.
  apply smeared_step in S1; [| lia].
  apply smeared_step in S1; [| lia].
  apply smeared_step in S1; [| lia].
  apply smeared_step in S1; [| lia].
  apply smeared_step in S1; [| lia].
  cbn [Z.mul Pos.mul] in S1.
  apply smeared_all in S1; [| assumption].
  rewrite S1, shiftr_ones by lia.
  apply popcount_ones. assumption.
Qed.

Lemma testbit_top n x :
  0 <= n -> 0 <= x < 2 ^ (n + 1) ->
  Z.testbit x n = true <-> 2 ^ n <= x.
Proof.
  intros Hn Hx. split.
  - intros Hb. destruct (Z.lt_ge_cases x (2 ^ n)) as [Hlt | Hge]; [| exact Hge].
    rewrite (testbit_above n x n) in Hb; [discriminate | split; lia | lia].
  - intros Hge.
    assert (Hpos : 0 < x) by (pose proof (Z.pow_pos_nonneg 2 n); lia).
    replace n with (Z.log2 x) at 1; [apply Z.bit_log2; exact Hpos |].
    apply Z.log2_unique; [lia |]. rewrite <- Z.add_1_r. lia.
Qed.

Lemma leading_zeros_log2 n x :
  0 < x < 2 ^ Z.of_nat n ->
  leading_zeros n x = Z.of_nat n - 1 - Z.log2 x.
Proof.
  induction n as [| n IH]; intros Hx.
  - simpl in Hx. lia.
  - cbn [leading_zeros].
    assert (Hx' : 0 <= x < 2 ^ (Z.of_nat n + 1)).
    { rewrite Nat2Z.inj_succ, <- Z.add_1_r in Hx. lia. }
    pose proof (testbit_top (Z.of_nat n) x ltac:(lia) Hx') as Htop.
    destruct (Z.testbit x (Z.of_nat n)) eqn:Hb.
    + assert (Hge : 2 ^ Z.of_nat n <= x) by (apply Htop; reflexivity).
      rewrite (Z.log2_unique x (Z.of_nat n)); [lia | lia |].
      rewrite <- Z.add_1_r. lia.
    + assert (Hlt : x < 2 ^ Z.of_nat n).
      { destruct (Z.lt_ge_cases x (2 ^ Z.of_nat n)) as [Hlt | Hge];
          [exact Hlt |].
        apply Htop in Hge. discriminate. }
      rewrite IH by lia. lia.
Qed.

Lemma builtin_clz_positive x :
  is_uint 32 x -> 0 < x -> builtin_clz x = Some (31 - Z.log2 x).
Proof.
  intros [_ Hx] Hpos. unfold builtin_clz.
  destruct (Z.eqb_spec x 0) as [E | _]; [lia |].
  rewrite (leading_zeros_log2 32 x) by (split; assumption).
  reflexivity.
Qed.

Lemma smallest_width_log2 d :
  0 < d -> smallest_width d (Z.log2 d + 1).
Proof.
  intros Hd. pose proof (Z.log2_nonneg d) as Hk.
  pose proof (Z.log2_spec d Hd) as [_ Hup]. rewrite <- Z.add_1_r in Hup.
  repeat split; [lia | exact Hup |].
  intros j Hj Hlt. apply Z.log2_lt_pow2 in Hlt; lia.
Qed.

Lemma smallest_width_0 : smallest_width 0 0.
Proof. repeat split; simpl; lia. Qed.

Lemma smallest_width_unique d k k' :
  smallest_width d k -> smallest_width d k' -> k = k'.
Proof.
  intros (H0 & H1 & H2) (H0' & H1' & H2').
  specialize (H2 k' H0' H1'). specialize (H2' k H0 H1). lia.
Qed.

(** The portable path ([__GNUC__] not defined) computes the smallest
    sufficient bit count for all bounds [min <= max]. *)
Lemma bits_required_portable min max :
  is_uint 32 min -> is_uint 32 max -> min <= max ->
  exists k, bits_required false min max = Some k /\
            smallest_width (max - min) k /\
            (min = max -> k = 0).
Proof.
  intros Hmin Hmax Hle. unfold bits_required.
  assert (Hd : is_uint 32 (max - min)) by (unfold is_uint in *; lia).
  unfold uint32 at 2. rewrite (uint_small 32 _ Hd).
  destruct (Z.eqb_spec min max) as [E | E].
  - exists 0. subst. rewrite Z.sub_diag.
    split; [reflexivity | split; [apply smallest_width_0 | reflexivity]].
  - assert (Hpos : 0 < max - min) by lia.
    rewrite (log2_correct false _ Hd Hpos).
    pose proof (log2_uint32 _ Hd Hpos) as Hk.
    exists (Z.log2 (max - min) + 1). split; [| split].
    + f_equal. int32_arith.
    + apply smallest_width_log2. exact Hpos.
    + intros; lia.
Qed.

(** The intrinsic path ([__GNUC__] defined) computes the same count when
    the bounds differ. *)
Lemma bits_required_gnuc min max :
  is_uint 32 min -> is_uint 32 max -> min < max ->
  bits_required true min max = Some (Z.log2 (max - min) + 1) /\
  smallest_width (max - min) (Z.log2 (max - min) + 1).
Proof.
  intros Hmin Hmax Hlt. unfold bits_required.
  assert (Hd : is_uint 32 (max - min)) by (unfold is_uint in *; lia).
  unfold uint32. rewrite (uint_small 32 _ Hd).
  rewrite builtin_clz_positive by (assumption || lia).
  split; [f_equal; lia | apply smallest_width_log2; lia].
Qed.

Lemma bits_required_paths_agree min max :
  is_uint 32 min -> is_uint 32 max -> min < max ->
  bits_required true min max = bits_required false min max.
Proof.
  intros Hmin Hmax Hlt.
  destruct (bits_required_gnuc min max Hmin Hmax Hlt) as [Hg Hs].
  destruct (bits_required_portable min max Hmin Hmax ltac:(lia))
    as (k & Hp & Hk & _).
  rewrite Hg, Hp. f_equal. exact (smallest_width_unique _ _ _ Hs Hk).
Qed.

(** C3: with [__GNUC__] defined, [bits_required] on equal bounds evaluates
    [32 - __builtin_clz( 0 )], whose value is undefined: the call does not
    return the 0 that the claim and the portable path give. *)
Theorem bits_required_gnuc_equal_bounds m :
  bits_required true m m = None.
Proof.
  unfold bits_required. rewrite Z.sub_diag. reflexivity.
Qed.

(** C4: on equal bounds the two paths of [bits_required] differ: the
    portable path returns 0, the intrinsic path has no defined value. *)
Theorem bits_required_paths_differ_equal_bounds m :
  bits_required false m m = Some 0 /\
  bits_required true m m <> bits_required false m m.
Proof.
  unfold bits_required. rewrite Z.sub_diag, Z.eqb_refl.
  split; [reflexivity | discriminate].
Qed.

(** ** Byte order *)

Ltac is_Z_literal c :=
  lazymatch c with
  | Z0 => idtac
  | Zpos _ => idtac
  | Zneg _ => idtac
  end.

Ltac bit_step :=
  match goal with
  | |- context [Z.testbit ?a ?i] =>
      let v := eval cbv in i in progress change i with v
  | |- context [Z.testbit ?a (Zneg ?p)] =>
      change (Z.testbit a (Zneg p)) with false
  | |- context [Z.testbit ?c ?i] =>
      is_Z_literal c;
      let v := eval cbv in (Z.testbit c i) in
      change (Z.testbit c i) with v
  | |- context [Z.testbit (Z.lor ?a ?b) ?i] => rewrite (Z.lor_spec a b i)
  | |- context [Z.testbit (Z.land ?a ?b) ?i] => rewrite (Z.land_spec a b i)
  | |- context [Z.testbit (Z.shiftl ?a ?n) ?i] =>
      rewrite (Z.shiftl_spec a n i) by lia
  | |- context [Z.testbit (Z.shiftr ?a ?n) ?i] =>
      rewrite (Z.shiftr_spec a n i) by lia
  | |- context [Z.testbit (?a mod 2 ^ ?n) ?i] =>
      first [ rewrite (Z.mod_pow2_bits_low a n i) by lia
            | rewrite (Z.mod_pow2_bits_high a n i) by lia ]
  end.

Ltac bit_case :=
  cbv beta; repeat bit_step;
  rewrite ?andb_true_r, ?andb_false_r, ?orb_false_r;
  cbn [andb orb]; try reflexivity.

Ltac each_bit n :=
  match goal with
  | |- forall i, 0 <= i < _ -> @?P i =>
      apply (Z_below_cases P n);
      cbv [map seq Z.of_nat Pos.of_succ_nat Pos.succ];
      repeat constructor; bit_case
  end.

Lemma bswap16_bits x :
  forall i, 0 <= i < 16 ->
  Z.testbit (bswap16 x) i = Z.testbit x (byte_mirror 2 i).
Proof.
  unfold bswap16, uint16, uint. each_bit 16%nat.
Qed.

Lemma bswap32_bits gnuc x :
  forall i, 0 <= i < 32 ->
  Z.testbit (bswap32 gnuc x) i = Z.testbit x (byte_mirror 4 i).
Proof.
  destruct gnuc.
  - unfold bswap32, builtin_bswap32, builtin_bswap.
    cbn [le_bytes rev app le_value]. each_bit 32%nat.
  - unfold bswap32, uint32, uint. each_bit 32%nat.
Qed.

Lemma bswap64_bits gnuc x :
  forall i, 0 <= i < 64 ->
  Z.testbit (bswap64 gnuc x) i = Z.testbit x (byte_mirror 8 i).
Proof.
  destruct gnuc.
  - unfold bswap64, builtin_bswap64, builtin_bswap.
    cbn [le_bytes rev app le_value]. each_bit 64%nat.
  - unfold bswap64, uint64, uint. cbv zeta. each_bit 64%nat.
Qed.

(** Bytes of an integer *)

Lemma le_bytes_length n x : length (le_bytes n x) = n.
Proof.
  revert x. induction n as [| n IH]; intros x; simpl; [| rewrite IH];
    reflexivity.
Qed.

Lemma le_bytes_are_bytes n x : Forall (is_uint 8) (le_bytes n x).
Proof.
  revert x. induction n as [| n IH]; intros x; simpl; constructor.
  - apply is_uint_land_r; [lia | unfold is_uint; lia].
  - apply IH.
Qed.

Lemma le_value_range bs :
  Forall (is_uint 8) bs -> is_uint (8 * Z.of_nat (length bs)) (le_value bs).
Proof.
  induction 1 as [| b bs Hb Hbs IH]; cbn [le_value].
  - unfold is_uint. simpl. lia.
  - cbn [length]. rewrite Nat2Z.inj_succ.
    apply is_uint_lor; [lia | |].
    + apply (is_uint_mono 8); [lia | exact Hb].
    + replace (8 * Z.succ (Z.of_nat (length bs)))
        with (8 * Z.of_nat (length bs) + 8) by lia.
      apply is_uint_shiftl; [lia | lia | exact IH].
Qed.

Lemma builtin_bswap_range n x :
  is_uint (8 * Z.of_nat n) (builtin_bswap n x).
Proof.
  unfold builtin_bswap.
  rewrite <- (le_bytes_length n x) at 1. rewrite <- length_rev.
  apply le_value_range. apply Forall_rev. apply le_bytes_are_bytes.
Qed.

Lemma bswap_range gnuc T x : is_uint (width T) (bswap gnuc T x).
Proof.
  destruct T; cbn [bswap width].
  - unfold bswap16, uint16. auto 8 with uint_range.
  - unfold bswap32. destruct gnuc.
    + apply (builtin_bswap_range 4).
    + unfold uint32. auto 8 with uint_range.
  - unfold bswap64. destruct gnuc.
    + apply (builtin_bswap_range 8).
    + cbv zeta. unfold uint64. auto 8 with uint_range.
Qed.

Lemma bswap_bits gnuc T x i :
  0 <= i < width T ->
  Z.testbit (bswap gnuc T x) i = Z.testbit x (byte_mirror (width T / 8) i).
Proof.
  destruct T; cbn [bswap width]; intros Hi.
  - apply bswap16_bits. exact Hi.
  - apply bswap32_bits. exact Hi.
  - apply bswap64_bits. exact Hi.
Qed.

Lemma byte_mirror_involutive n i :
  0 <= i < 8 * n ->
  0 <= byte_mirror n i < 8 * n /\ byte_mirror n (byte_mirror n i) = i.
Proof.
  unfold byte_mirror. intros Hi. Z.div_mod_to_equations. lia.
Qed.

Lemma bswap_involutive gnuc T x :
  is_uint (width T) x -> bswap gnuc T (bswap gnuc T x) = x.
Proof.
  intros Hx.
  assert (Hw : 0 <= width T) by (destruct T; simpl; lia).
  apply (uint_bits_ext (width T)); [exact Hw | apply bswap_range | exact Hx |].
  intros i Hi.
  assert (Hn : width T = 8 * (width T / 8)) by (destruct T; reflexivity).
  destruct (byte_mirror_involutive (width T / 8) i ltac:(lia)) as [Hm Hmm].
  rewrite bswap_bits by exact Hi.
  rewrite bswap_bits by lia.
  rewrite Hmm. reflexivity.
Qed.

(** C6: for each of the widths 16, 32 and 64, on either path of [bswap]
    and for either byte order of the build, swapping twice is the identity
    and [network_to_host] undoes [host_to_network]. *)
Theorem bswap_and_network_round_trip gnuc big_endian T x :
  is_uint (width T) x ->
  bswap gnuc T (bswap gnuc T x) = x /\
  network_to_host gnuc big_endian T (host_to_network gnuc big_endian T x) = x.
Proof.
  intros Hx. split; [apply bswap_involutive; exact Hx |].
  unfold network_to_host, host_to_network. destruct big_endian.
  - apply bswap_involutive. exact Hx.
  - reflexivity.
Qed.

Lemma bswap_and_network_round_trip_witness :
  bswap false uint64_t (bswap false uint64_t 0x0102030405060708)
    = 0x0102030405060708 /\
  network_to_host false true uint64_t
    (host_to_network false true uint64_t 0x0102030405060708)
    = 0x0102030405060708.
Proof.
  apply (bswap_and_network_round_trip false true uint64_t).
  unfold is_uint. simpl. lia.
Defined.

(** ** Packet sequence codec *)

Lemma low_byte_and_rest x :
  Z.lor (Z.land x 0xff) (Z.shiftl (Z.shiftr x 8) 8) = x.
Proof.
  change 0xff with (Z.ones 8). rewrite Z.land_ones by lia.
  apply Z.bits_inj'. intros i Hi.
  rewrite Z.lor_spec, Z.shiftl_spec by exact Hi.
  destruct (Z.lt_ge_cases i 8).
  - rewrite Z.mod_pow2_bits_low, (Z.testbit_neg_r _ (i - 8)) by lia.
    apply orb_false_r.
  - rewrite Z.mod_pow2_bits_high, Z.shiftr_spec by lia.
    simpl. f_equal. lia.
Qed.

Lemma le_value_le_bytes n x :
  is_uint (8 * Z.of_nat n) x -> le_value (le_bytes n x) = x.
Proof.
  revert x. induction n as [| n IH]; intros x Hx.
  - unfold is_uint in Hx. simpl in *. lia.
  - cbn [le_bytes le_value]. rewrite IH; [apply low_byte_and_rest |].
    replace (8 * Z.of_nat n) with (8 * Z.of_nat (S n) - 8) by lia.
    apply is_uint_shiftr_sub; [lia | exact Hx].
Qed.

Lemma sequence_byte_count_fits more sequence :
  is_uint (8 * (Z.of_nat more + 1)) sequence ->
  is_uint (8 * Z.of_nat (sequence_byte_count more sequence)) sequence.
Proof.
  revert sequence. induction more as [| k IH]; intros sequence H.
  - exact H.
  - cbn [sequence_byte_count].
    destruct (Z.ltb_spec sequence 256) as [Hlt | Hge].
    + unfold is_uint in *. simpl. lia.
    + rewrite Nat2Z.inj_succ.
      replace (8 * Z.succ (Z.of_nat (sequence_byte_count k (Z.shiftr sequence 8))))
        with (8 * Z.of_nat (sequence_byte_count k (Z.shiftr sequence 8)) + 8)
        by lia.
      apply is_uint_shiftr_inv; [lia | lia | lia |].
      apply IH.
      replace (8 * (Z.of_nat k + 1)) with (8 * (Z.of_nat (S k) + 1) - 8) by lia.
      apply is_uint_shiftr_sub; [lia | exact H].
Qed.

Lemma sequence_byte_count_bounds more sequence :
  (1 <= sequence_byte_count more sequence <= S more)%nat.
Proof.
  revert sequence. induction more as [| k IH]; intros sequence;
    cbn [sequence_byte_count]; [lia |].
  destruct (sequence <? 256); [lia |].
  specialize (IH (Z.shiftr sequence 8)). lia.
Qed.

(** The count is the minimum: no smaller number of bytes holds the
    sequence number. *)
Lemma sequence_byte_count_least more sequence n :
  (1 <= n)%nat -> is_uint (8 * Z.of_nat n) sequence ->
  (sequence_byte_count more sequence <= n)%nat.
Proof.
  revert sequence n. induction more as [| k IH]; intros sequence n Hn H;
    cbn [sequence_byte_count]; [exact Hn |].
  destruct (Z.ltb_spec sequence 256) as [Hlt | Hge]; [exact Hn |].
  destruct n as [| [| n]]; [lia | unfold is_uint in H; simpl in H; lia |].
  apply le_n_S. apply IH; [lia |].
  replace (8 * Z.of_nat (S n)) with (8 * Z.of_nat (S (S n)) - 8) by lia.
  apply is_uint_shiftr_sub; [lia | exact H].
Qed.

(** The encoded length is weakly increasing in the sequence number. *)
Lemma sequence_byte_count_monotone a b :
  is_uint 64 b -> 0 <= a <= b ->
  (sequence_byte_count 7 a <= sequence_byte_count 7 b)%nat.
Proof.
  intros Hb Hab.
  apply sequence_byte_count_least;
    [apply sequence_byte_count_bounds |].
  pose proof (sequence_byte_count_fits 7 b Hb) as Hfit.
  unfold is_uint in *. lia.
Qed.

(** The lookup agrees with the count that the compressor chose, which is
    between 1 and 8. *)
Lemma get_packet_sequence_bytes_compress sequence :
  let c := compress_packet_sequence sequence in
  get_packet_sequence_bytes (prefix_byte c) = num_sequence_bytes c /\
  Z.of_nat (length (sequence_bytes c)) = num_sequence_bytes c /\
  1 <= num_sequence_bytes c <= 8.
Proof.
  unfold compress_packet_sequence, get_packet_sequence_bytes.
  cbn [prefix_byte num_sequence_bytes sequence_bytes].
  rewrite le_bytes_length.
  pose proof (sequence_byte_count_bounds 7 sequence). lia.
Qed.

(** The decoder reads only the bytes that the prefix announces: what
    follows the payload in the buffer does not matter. *)
Lemma decompress_compress_packet_sequence_buffer sequence rest :
  is_uint 64 sequence ->
  decompress_packet_sequence
    (prefix_byte (compress_packet_sequence sequence))
    (sequence_bytes (compress_packet_sequence sequence) ++ rest) = sequence.
Proof.
  intros H.
  unfold decompress_packet_sequence, get_packet_sequence_bytes,
    compress_packet_sequence.
  cbn [prefix_byte sequence_bytes].
  rewrite Nat2Z.id.
  set (n := sequence_byte_count 7 sequence).
  rewrite <- (le_bytes_length n sequence) at 1.
  rewrite firstn_app, firstn_all, Nat.sub_diag.
  cbn [firstn]. rewrite app_nil_r.
  apply le_value_le_bytes. apply (sequence_byte_count_fits 7). exact H.
Qed.

(** C1: for every [uint64] sequence number, decompressing the prefix byte
    and the payload bytes that [compress_packet_sequence] produced gives
    the sequence number back. *)
Theorem decompress_compress_packet_sequence sequence :
  is_uint 64 sequence ->
  decompress_packet_sequence
    (prefix_byte (compress_packet_sequence sequence))
    (sequence_bytes (compress_packet_sequence sequence)) = sequence.
Proof.
  intros H.
  rewrite <- (app_nil_r (sequence_bytes (compress_packet_sequence sequence))).
  apply decompress_compress_packet_sequence_buffer. exact H.
Qed.

Lemma decompress_compress_packet_sequence_witness :
  let round_trip s :=
    decompress_packet_sequence
      (prefix_byte (compress_packet_sequence s))
      (sequence_bytes (compress_packet_sequence s)) in
  round_trip 0 = 0 /\
  round_trip 255 = 255 /\ round_trip 256 = 256 /\
  round_trip 65535 = 65535 /\ round_trip 65536 = 65536 /\
  round_trip (2 ^ 64 - 1) = 2 ^ 64 - 1.
Proof.
  cbv zeta.
  repeat apply conj;
    apply decompress_compress_packet_sequence; unfold is_uint; lia.
Defined.

(** * Further properties *)

(** ** Further properties of the sequence comparison *)

Lemma uint16_bounds s : is_uint 16 s <-> 0 <= s < 65536.
Proof. unfold is_uint. change (2 ^ 16) with 65536. tauto. Qed.

(** X1: [sequence_greater_than s1 s2] holds exactly when the difference
    [s1 - s2], reduced modulo 65536, lies in 1..32767, or is 32768 with
    [s1] the numerically larger operand. *)
Theorem sequence_greater_than_wrapped_difference s1 s2 :
  is_uint 16 s1 -> is_uint 16 s2 ->
  sequence_greater_than s1 s2 = true <->
  (0 < (s1 - s2) mod 65536 < 32768 \/
   ((s1 - s2) mod 65536 = 32768 /\ s2 < s1)).
Proof.
  intros H1 H2. apply -> uint16_bounds in H1. apply -> uint16_bounds in H2.
  rewrite sequence_greater_than_true_iff.
  destruct (Z.lt_trichotomy s1 s2) as [Hlt | [Heq | Hgt]].
  - rewrite <- (Z.mod_unique (s1 - s2) 65536 (-1) (s1 - s2 + 65536)) by lia.
    lia.
  - subst. rewrite Z.sub_diag, Z.mod_0_l by lia. lia.
  - rewrite Z.mod_small by lia. lia.
Qed.

Lemma sequence_greater_than_wrapped_difference_witness :
  sequence_greater_than 3 65530 = true <->
  (0 < (3 - 65530) mod 65536 < 32768 \/
   ((3 - 65530) mod 65536 = 32768 /\ 65530 < 3)).
Proof.
  apply sequence_greater_than_wrapped_difference; unfold is_uint; lia.
Defined.

(** X2: a sequence number that is 1 to 32767 steps ahead of [s], counting
    modulo 65536, is greater than [s], and [s] is not greater than it,
    wherever the wrap falls. *)
Theorem sequence_greater_than_ahead s d :
  is_uint 16 s -> 1 <= d <= 32767 ->
  sequence_greater_than ((s + d) mod 65536) s = true /\
  sequence_greater_than s ((s + d) mod 65536) = false.
Proof.
  intros Hs Hd. apply -> uint16_bounds in Hs.
  split;
    try apply not_true_is_false;
    rewrite ?sequence_greater_than_true_iff;
    Z.div_mod_to_equations; lia.
Qed.

Lemma sequence_greater_than_ahead_witness :
  sequence_greater_than ((65535 + 1) mod 65536) 65535 = true /\
  sequence_greater_than 65535 ((65535 + 1) mod 65536) = false.
Proof.
  apply sequence_greater_than_ahead; unfold is_uint; lia.
Defined.

(** X3: the comparison is not transitive: from every sequence number [s],
    three steps of 21846, 21846 and 21844 lead back to [s], and each step
    goes to a greater sequence number. *)
Theorem sequence_greater_than_cycle s :
  is_uint 16 s ->
  let b := (s + 21846) mod 65536 in
  let c := (s + 43692) mod 65536 in
  sequence_greater_than b s = true /\
  sequence_greater_than c b = true /\
  sequence_greater_than s c = true /\
  sequence_greater_than c s = false.
Proof.
  intros Hs b c. apply -> uint16_bounds in Hs. subst b c.
  repeat apply conj;
    try apply not_true_is_false;
    rewrite ?sequence_greater_than_true_iff;
    Z.div_mod_to_equations; lia.
Qed.

Lemma sequence_greater_than_cycle_witness :
  sequence_greater_than 21846 0 = true /\
  sequence_greater_than 43692 21846 = true /\
  sequence_greater_than 0 43692 = true /\
  sequence_greater_than 43692 0 = false.
Proof.
  apply (sequence_greater_than_cycle 0). unfold is_uint. lia.
Defined.

(** ** Further properties of the zig-zag coding *)

Lemma zig_zag_code n :
  is_sint 32 n ->
  uint32 (signed_to_unsigned n) = 2 * Z.abs n - (if n <? 0 then 1 else 0).
Proof.
  intros H. rewrite (signed_to_unsigned_uint32 n H).
  destruct (Z.ltb_spec n 0); lia.
Qed.

(** X4: a value of magnitude below [2 ^ k] has a zig-zag code below
    [2 ^ (k + 1)]: the code of a [k]-bit magnitude fits [k + 1] bits. *)
Theorem signed_to_unsigned_width k n :
  0 <= k <= 31 -> - 2 ^ k <= n < 2 ^ k ->
  is_uint (k + 1) (uint32 (signed_to_unsigned n)).
Proof.
  intros Hk Hn.
  assert (Hp : 2 ^ k <= 2 ^ 31) by (apply Z.pow_le_mono_r; lia).
  assert (H : is_sint 32 n) by (unfold is_sint; simpl Z.sub; lia).
  rewrite (zig_zag_code n H). unfold is_uint.
  rewrite Z.pow_add_r by lia. change (2 ^ 1) with 2.
  destruct (Z.ltb_spec n 0); lia.
Qed.

Lemma signed_to_unsigned_width_witness :
  is_uint (7 + 1) (uint32 (signed_to_unsigned (-128))).
Proof.
  apply signed_to_unsigned_width; simpl; lia.
Defined.

(** X5: the zig-zag code grows with the magnitude: a value of smaller
    absolute value has a smaller code, and of [n] and [- n] the negative
    one has the smaller code. *)
Theorem signed_to_unsigned_magnitude_order n m :
  is_sint 32 n -> is_sint 32 m ->
  (Z.abs n < Z.abs m ->
   uint32 (signed_to_unsigned n) < uint32 (signed_to_unsigned m)) /\
  (0 < n -> m = - n ->
   uint32 (signed_to_unsigned m) + 1 = uint32 (signed_to_unsigned n)).
Proof.
  intros Hn Hm. rewrite (zig_zag_code n Hn), (zig_zag_code m Hm).
  destruct (Z.ltb_spec n 0); destruct (Z.ltb_spec m 0); lia.
Qed.

Lemma signed_to_unsigned_magnitude_order_witness :
  uint32 (signed_to_unsigned 5) < uint32 (signed_to_unsigned (-6)) /\
  uint32 (signed_to_unsigned (-6)) + 1 = uint32 (signed_to_unsigned 6).
Proof.
  split.
  - apply (signed_to_unsigned_magnitude_order 5 (-6));
      unfold is_sint; simpl; lia.
  - apply (signed_to_unsigned_magnitude_order 6 (-6));
      unfold is_sint; simpl; lia.
Defined.

(** X6: the [int] that [signed_to_unsigned] returns is negative exactly
    for the arguments outside [- 2^30, 2^30): the code is a non-negative
    number only after conversion to [uint32_t]. *)
Theorem signed_to_unsigned_negative_result n :
  is_sint 32 n ->
  signed_to_unsigned n < 0 <-> (n < - 2 ^ 30 \/ 2 ^ 30 <= n).
Proof.
  intros H. rewrite (signed_to_unsigned_int n H).
  change (2 ^ 30) with 1073741824.
  destruct (Z.ltb_spec n 0); int32_arith.
Qed.

Lemma signed_to_unsigned_negative_result_witness :
  signed_to_unsigned (2 ^ 30) < 0 <-> (2 ^ 30 < - 2 ^ 30 \/ 2 ^ 30 <= 2 ^ 30).
Proof.
  apply signed_to_unsigned_negative_result. unfold is_sint. simpl. lia.
Defined.

(** X7: [unsigned_to_signed] sends an even code [u] to [u / 2] and an odd
    code to [- (u + 1) / 2], so 0, 1, 2, 3, 4 become 0, -1, 1, -2, 2; the
    result is an [int32] value. *)
Theorem unsigned_to_signed_parity u :
  is_uint 32 u ->
  is_sint 32 (unsigned_to_signed u) /\
  (Z.even u = true -> unsigned_to_signed u = u / 2) /\
  (Z.odd u = true -> unsigned_to_signed u = - ((u + 1) / 2)).
Proof.
  intros H. split; [apply unsigned_to_signed_range; exact H |].
  rewrite (unsigned_to_signed_int u H).
  pose proof (Zmod_even u) as Hm. rewrite <- (Z.negb_even u).
  destruct (Z.even u); rewrite Hm; simpl.
  - split; [reflexivity | discriminate].
  - split; [discriminate |]. intros _. Z.div_mod_to_equations. lia.
Qed.

Lemma unsigned_to_signed_parity_witness :
  is_sint 32 (unsigned_to_signed 7) /\
  (Z.even 7 = true -> unsigned_to_signed 7 = 7 / 2) /\
  (Z.odd 7 = true -> unsigned_to_signed 7 = - ((7 + 1) / 2)).
Proof.
  apply unsigned_to_signed_parity. unfold is_uint. lia.
Defined.

(** ** Further properties of the bit width functions *)

(** X8: for every positive [uint32_t] value, [log2] is the position of
    its highest set bit, [2 ^ log2 x <= x < 2 ^ (log2 x + 1)], whichever
    population count the build uses; [log2 0] is 0. *)
Theorem log2_floor gnuc x :
  is_uint 32 x ->
  0 <= log2 gnuc x <= 31 /\
  (0 < x -> 2 ^ log2 gnuc x <= x < 2 ^ (log2 gnuc x + 1)) /\
  (x = 0 -> log2 gnuc x = 0).
Proof.
  intros Hx. destruct (Z.eq_dec x 0) as [E | E].
  - subst x. destruct gnuc; repeat split; try lia; try reflexivity;
      vm_compute; discriminate.
  - assert (Hpos : 0 < x) by (unfold is_uint in Hx; lia).
    rewrite (log2_correct gnuc x Hx Hpos).
    pose proof (log2_uint32 x Hx Hpos) as Hk.
    pose proof (Z.log2_spec x Hpos) as Hs. rewrite <- Z.add_1_r in Hs.
    repeat split; lia.
Qed.

Lemma log2_floor_witness :
  0 <= log2 false 1000 <= 31 /\
  (0 < 1000 -> 2 ^ log2 false 1000 <= 1000 < 2 ^ (log2 false 1000 + 1)) /\
  (1000 = 0 -> log2 false 1000 = 0).
Proof.
  apply log2_floor. unfold is_uint. lia.
Defined.

(** The value of [bits_required] on two different bounds, on either
    path: the position of the highest set bit of the wrapped difference,
    plus one. *)
Lemma bits_required_value gnuc min max :
  uint32 (max - min) <> 0 ->
  bits_required gnuc min max = Some (Z.log2 (uint32 (max - min)) + 1).
Proof.
  intros Hd.
  assert (Hu : is_uint 32 (uint32 (max - min))) by (apply uint_range; lia).
  assert (Hpos : 0 < uint32 (max - min)) by (unfold is_uint in Hu; lia).
  unfold bits_required. destruct gnuc.
  - rewrite builtin_clz_positive by assumption. f_equal. lia.
  - destruct (Z.eqb_spec min max) as [E | E].
    + subst. rewrite Z.sub_diag in Hd. contradiction.
    + rewrite (log2_correct false _ Hu Hpos).
      pose proof (log2_uint32 _ Hu Hpos) as Hk.
      f_equal. int32_arith.
Qed.

(** X9: with [__GNUC__] not defined, [bits_required] returns, for all
    bounds [min <= max], the smallest [k] with [2 ^ k > max - min]; the
    result is 0 exactly when the bounds are equal and never exceeds 32. *)
Theorem bits_required_portable_smallest min max :
  is_uint 32 min -> is_uint 32 max -> min <= max ->
  exists k, bits_required false min max = Some k /\
            smallest_width (max - min) k /\
            0 <= k <= 32 /\ (k = 0 <-> min = max).
Proof.
  intros Hmin Hmax Hle.
  assert (Hd : is_uint 32 (max - min)) by (unfold is_uint in *; lia).
  destruct (Z.eq_dec min max) as [E | E].
  - exists 0. subst. unfold bits_required. rewrite Z.eqb_refl, Z.sub_diag.
    split; [reflexivity | split; [apply smallest_width_0 | lia]].
  - exists (Z.log2 (max - min) + 1).
    assert (Hpos : 0 < max - min) by lia.
    pose proof (log2_uint32 _ Hd Hpos) as Hk.
    rewrite bits_required_value; unfold uint32; rewrite (uint_small 32 _ Hd);
      [| lia].
    split; [reflexivity | split; [apply smallest_width_log2; exact Hpos | lia]].
Qed.

Lemma bits_required_portable_smallest_witness :
  exists k, bits_required false 10 266 = Some k /\
            smallest_width (266 - 10) k /\
            0 <= k <= 32 /\ (k = 0 <-> 10 = 266).
Proof.
  apply bits_required_portable_smallest; unfold is_uint; lia.
Defined.

(** X10: with [__GNUC__] defined, [bits_required] returns, for all
    bounds [min < max], the smallest [k] with [2 ^ k > max - min], a
    number from 1 to 32. *)
Theorem bits_required_gnuc_smallest min max :
  is_uint 32 min -> is_uint 32 max -> min < max ->
  exists k, bits_required true min max = Some k /\
            smallest_width (max - min) k /\ 1 <= k <= 32.
Proof.
  intros Hmin Hmax Hlt.
  assert (Hd : is_uint 32 (max - min)) by (unfold is_uint in *; lia).
  assert (Hpos : 0 < max - min) by lia.
  pose proof (log2_uint32 _ Hd Hpos) as Hk.
  exists (Z.log2 (max - min) + 1).
  rewrite bits_required_value; unfold uint32; rewrite (uint_small 32 _ Hd);
    [| lia].
  split; [reflexivity | split; [apply smallest_width_log2; exact Hpos | lia]].
Qed.

Lemma bits_required_gnuc_smallest_witness :
  exists k, bits_required true 0 4294967295 = Some k /\
            smallest_width (4294967295 - 0) k /\ 1 <= k <= 32.
Proof.
  apply bits_required_gnuc_smallest; unfold is_uint; lia.
Defined.

(** X11: [bits_required] does not check the order of its bounds: with
    [min > max] the unsigned difference wraps, and both paths return the
    bit width of [2 ^ 32 - (min - max)], a number from 1 to 32. *)
Theorem bits_required_inverted_bounds gnuc min max :
  is_uint 32 min -> is_uint 32 max -> max < min ->
  bits_required gnuc min max = Some (Z.log2 (2 ^ 32 - (min - max)) + 1) /\
  1 <= Z.log2 (2 ^ 32 - (min - max)) + 1 <= 32.
Proof.
  intros Hmin Hmax Hlt.
  assert (Hw : uint32 (max - min) = 2 ^ 32 - (min - max)).
  { unfold uint32, uint. symmetry.
    apply Z.mod_unique with (q := -1); unfold is_uint in *; lia. }
  assert (Hd : is_uint 32 (2 ^ 32 - (min - max))) by (unfold is_uint in *; lia).
  assert (Hpos : 0 < 2 ^ 32 - (min - max)) by (unfold is_uint in *; lia).
  pose proof (log2_uint32 _ Hd Hpos) as Hk.
  rewrite bits_required_value; rewrite Hw; [| lia].
  split; [reflexivity | lia].
Qed.

Lemma bits_required_inverted_bounds_witness :
  bits_required true 1 0 = Some (Z.log2 (2 ^ 32 - (1 - 0)) + 1) /\
  1 <= Z.log2 (2 ^ 32 - (1 - 0)) + 1 <= 32.
Proof.
  apply bits_required_inverted_bounds; unfold is_uint; lia.
Defined.

(** ** The compile-time templates *)

Lemma PopCount_popcount x : PopCount x = popcount false x.
Proof. cbv beta iota delta [PopCount popcount]. reflexivity. Qed.

Lemma Log2_log2 x : Log2 x = log2 false x.
Proof. cbv beta iota delta [Log2 log2 PopCount popcount]. reflexivity. Qed.

Lemma uint32_sint64 d : uint32 (sint 64 d) = uint32 d.
Proof.
  unfold uint32, uint, sint.
  change (2 ^ (64 - 1)) with 9223372036854775808.
  change (2 ^ 64) with 18446744073709551616.
  change (2 ^ 32) with 4294967296.
  Z.div_mod_to_equations. lia.
Qed.

Lemma BitsRequired_value min max :
  uint32 (max - min) <> 0 ->
  BitsRequired min max = Z.log2 (uint32 (max - min)) + 1.
Proof.
  intros Hd. unfold BitsRequired.
  destruct (Z.eqb_spec min max) as [E | E].
  - subst. rewrite Z.sub_diag in Hd. contradiction.
  - rewrite uint32_sint64, Log2_log2.
    assert (Hu : is_uint 32 (uint32 (max - min))) by (apply uint_range; lia).
    assert (Hpos : 0 < uint32 (max - min)) by (unfold is_uint in Hu; lia).
    rewrite (log2_correct false _ Hu Hpos).
    pose proof (log2_uint32 _ Hu Hpos) as Hk. int32_arith.
Qed.

(** X12: for [int64_t] bounds [min <= max] whose difference is below
    [2 ^ 32], the constant [BitsRequired<min,max>::result] is the smallest
    [k] with [2 ^ k > max - min], and 0 when the bounds are equal. *)
Theorem BitsRequired_smallest min max :
  is_sint 64 min -> is_sint 64 max -> min <= max -> max - min < 2 ^ 32 ->
  smallest_width (max - min) (BitsRequired min max) /\
  (min = max -> BitsRequired min max = 0).
Proof.
  intros _ _ Hle Hd.
  assert (Hu : is_uint 32 (max - min)) by (unfold is_uint; lia).
  destruct (Z.eq_dec min max) as [E | E].
  - subst. unfold BitsRequired. rewrite Z.eqb_refl, Z.sub_diag.
    split; [apply smallest_width_0 | reflexivity].
  - rewrite BitsRequired_value; unfold uint32; rewrite (uint_small 32 _ Hu);
      [| lia].
    split; [apply smallest_width_log2; lia | intros; lia].
Qed.

Lemma BitsRequired_smallest_witness :
  smallest_width (100 - (-100)) (BitsRequired (-100) 100) /\
  (-100 = 100 -> BitsRequired (-100) 100 = 0).
Proof.
  apply BitsRequired_smallest; unfold is_sint; simpl; lia.
Defined.

(** X13: the difference of the bounds of [BitsRequired] is cut to 32
    bits: for bounds that are [2 ^ 32] or more apart (with a difference
    that fits [int64_t]) the constant is the bit width of
    [(max - min) mod 2 ^ 32], or 1 when that remainder is 0.  It is
    between 1 and 32 and too small to hold the range,
    [2 ^ result <= max - min]. *)
Theorem BitsRequired_wide_range min max :
  is_sint 64 min -> is_sint 64 max -> is_sint 64 (max - min) ->
  2 ^ 32 <= max - min ->
  BitsRequired min max
  = (if (max - min) mod 2 ^ 32 =? 0 then 1
     else Z.log2 ((max - min) mod 2 ^ 32) + 1) /\
  1 <= BitsRequired min max <= 32 /\
  2 ^ BitsRequired min max <= max - min /\
  ~ smallest_width (max - min) (BitsRequired min max).
Proof.
  intros _ _ _ Hd.
  assert (Hv : BitsRequired min max
               = (if (max - min) mod 2 ^ 32 =? 0 then 1
                  else Z.log2 ((max - min) mod 2 ^ 32) + 1)).
  { change ((max - min) mod 2 ^ 32) with (uint32 (max - min)).
    destruct (Z.eqb_spec (uint32 (max - min)) 0) as [E | E].
    - unfold BitsRequired. destruct (Z.eqb_spec min max); [lia |].
      rewrite uint32_sint64, E. vm_compute. reflexivity.
    - apply (BitsRequired_value min max E). }
  assert (Hb : 1 <= BitsRequired min max <= 32).
  { rewrite Hv. change ((max - min) mod 2 ^ 32) with (uint32 (max - min)).
    destruct (Z.eqb_spec (uint32 (max - min)) 0) as [E | E]; [lia |].
    assert (Hu : is_uint 32 (uint32 (max - min))) by (apply uint_range; lia).
    assert (Hpos : 0 < uint32 (max - min)) by (unfold is_uint in Hu; lia).
    pose proof (log2_uint32 _ Hu Hpos). lia. }
  assert (Hp : 2 ^ BitsRequired min max <= max - min).
  { apply Z.le_trans with (2 ^ 32); [| exact Hd].
    apply Z.pow_le_mono_r; lia. }
  split; [exact Hv | split; [exact Hb | split; [exact Hp |]]].
  intros (_ & Hlt & _). lia.
Qed.

Lemma BitsRequired_wide_range_witness :
  BitsRequired 0 (2 ^ 32 + 5)
  = (if (2 ^ 32 + 5 - 0) mod 2 ^ 32 =? 0 then 1
     else Z.log2 ((2 ^ 32 + 5 - 0) mod 2 ^ 32) + 1) /\
  1 <= BitsRequired 0 (2 ^ 32 + 5) <= 32 /\
  2 ^ BitsRequired 0 (2 ^ 32 + 5) <= 2 ^ 32 + 5 - 0 /\
  ~ smallest_width (2 ^ 32 + 5 - 0) (BitsRequired 0 (2 ^ 32 + 5)).
Proof.
  apply BitsRequired_wide_range; unfold is_sint; simpl; lia.
Defined.

(** X14: on [uint32_t] bounds [min <= max] the compile-time constant
    [BitsRequired<min,max>::result] is the value that [bits_required]
    returns at run time on its portable path, and for [min < max] also on
    its intrinsic path. *)
Theorem BitsRequired_bits_required min max :
  is_uint 32 min -> is_uint 32 max -> min <= max ->
  bits_required false min max = Some (BitsRequired min max) /\
  (min < max -> bits_required true min max = Some (BitsRequired min max)).
Proof.
  intros Hmin Hmax Hle.
  destruct (Z.eq_dec min max) as [E | E].
  - subst. unfold bits_required, BitsRequired. rewrite Z.eqb_refl.
    split; [reflexivity | lia].
  - assert (Hd : uint32 (max - min) <> 0).
    { unfold uint32. rewrite uint_small; unfold is_uint in *; lia. }
    rewrite !bits_required_value, BitsRequired_value by exact Hd.
    split; [reflexivity | intros _; reflexivity].
Qed.

Lemma BitsRequired_bits_required_witness :
  bits_required false 3 19 = Some (BitsRequired 3 19) /\
  (3 < 19 -> bits_required true 3 19 = Some (BitsRequired 3 19)).
Proof.
  apply BitsRequired_bits_required; unfold is_uint; lia.
Defined.

(** ** Further properties of the byte swaps *)

Lemma low_byte_of_lor b v :
  is_uint 8 b -> Z.land (Z.lor b (Z.shiftl v 8)) 0xff = b.
Proof.
  intros Hb. change 0xff with (Z.ones 8). rewrite Z.land_ones by lia.
  apply Z.bits_inj'. intros i Hi.
  destruct (Z.lt_ge_cases i 8).
  - rewrite Z.mod_pow2_bits_low, Z.lor_spec, Z.shiftl_spec by lia.
    rewrite (Z.testbit_neg_r v (i - 8)) by lia. apply orb_false_r.
  - rewrite Z.mod_pow2_bits_high by lia.
    symmetry. apply (testbit_above 8 b i Hb). lia.
Qed.

Lemma rest_of_lor b v :
  is_uint 8 b -> Z.shiftr (Z.lor b (Z.shiftl v 8)) 8 = v.
Proof.
  intros Hb. apply Z.bits_inj'. intros i Hi.
  rewrite Z.shiftr_spec, Z.lor_spec, Z.shiftl_spec by lia.
  rewrite (testbit_above 8 b (i + 8) Hb) by lia.
  simpl. f_equal. lia.
Qed.

Lemma le_bytes_le_value bs :
  Forall (is_uint 8) bs -> le_bytes (length bs) (le_value bs) = bs.
Proof.
  induction 1 as [| b bs Hb Hbs IH]; cbn [length le_value le_bytes].
  - reflexivity.
  - rewrite (low_byte_of_lor b _ Hb), (rest_of_lor b _ Hb), IH. reflexivity.
Qed.

Lemma builtin_bswap16_bits x :
  forall i, 0 <= i < 16 ->
  Z.testbit (builtin_bswap 2 x) i = Z.testbit x (byte_mirror 2 i).
Proof.
  unfold builtin_bswap. cbn [le_bytes rev app le_value]. each_bit 16%nat.
Qed.

(** On every path [bswap] is the reversal of the bytes of its operand. *)
Lemma bswap_builtin_bswap gnuc T x :
  bswap gnuc T x = builtin_bswap (Z.to_nat (width T / 8)) x.
Proof.
  assert (Hw : 0 <= width T) by (destruct T; simpl; lia).
  apply (uint_bits_ext (width T)); [exact Hw | apply bswap_range | |].
  - destruct T; [apply (builtin_bswap_range 2) | apply (builtin_bswap_range 4)
                | apply (builtin_bswap_range 8)].
  - intros i Hi. rewrite bswap_bits by exact Hi. symmetry.
    destruct T; cbn [width] in *.
    + apply builtin_bswap16_bits. exact Hi.
    + apply (bswap32_bits true). exact Hi.
    + apply (bswap64_bits true). exact Hi.
Qed.

(** X15: the portable path and the intrinsic path of [bswap] return the
    same value, for the 32-bit and for the 64-bit overload and for every
    operand. *)
Theorem bswap_paths_agree x :
  bswap32 false x = bswap32 true x /\ bswap64 false x = bswap64 true x.
Proof.
  split.
  - change (bswap false uint32_t x = bswap true uint32_t x).
    rewrite !bswap_builtin_bswap. reflexivity.
  - change (bswap false uint64_t x = bswap true uint64_t x).
    rewrite !bswap_builtin_bswap. reflexivity.
Qed.

(** X16: the bytes of [bswap x], least significant first, are the bytes
    of [x] in reverse order, for each width and on either path; the
    result is a value of the same width. *)
Theorem bswap_reverses_bytes gnuc T x :
  let n := Z.to_nat (width T / 8) in
  le_bytes n (bswap gnuc T x) = rev (le_bytes n x) /\
  is_uint (width T) (bswap gnuc T x).
Proof.
  intros n. split; [| apply bswap_range].
  rewrite bswap_builtin_bswap. fold n. unfold builtin_bswap.
  assert (L : length (rev (le_bytes n x)) = n)
    by (rewrite length_rev; apply le_bytes_length).
  rewrite <- L at 1.
  apply le_bytes_le_value. apply Forall_rev. apply le_bytes_are_bytes.
Qed.

(** ** The generic helpers *)

(** X17: when [a <= b], [clamp value a b] lies in [[a, b]], leaves a
    value of that interval unchanged and is idempotent. *)
Theorem clamp_range value a b :
  a <= b ->
  a <= clamp value a b <= b /\
  (a <= value <= b -> clamp value a b = value) /\
  clamp (clamp value a b) a b = clamp value a b.
Proof.
  intros Hab. unfold clamp. rewrite !Z.gtb_ltb.
  repeat match goal with
         | |- context [?x <? ?y] => destruct (Z.ltb_spec x y)
         end; lia.
Qed.

Lemma clamp_range_witness :
  0 <= clamp 300 0 255 <= 255 /\
  (0 <= 300 <= 255 -> clamp 300 0 255 = 300) /\
  clamp (clamp 300 0 255) 0 255 = clamp 300 0 255.
Proof.
  apply clamp_range. lia.
Defined.

Lemma min_Z_min a b : min a b = Z.min a b.
Proof. unfold min. destruct (Z.ltb_spec a b); lia. Qed.

Lemma max_Z_max a b : max a b = Z.max a b.
Proof. unfold max. rewrite Z.gtb_ltb. destruct (Z.ltb_spec b a); lia. Qed.

(** X18: when [a <= b], [clamp value a b] is [max a (min value b)] and
    also [min b (max value a)]; with [a > b] the first equation fails
    whenever [value >= a], where [clamp] returns [b]. *)
Theorem clamp_min_max value a b :
  (a <= b ->
   clamp value a b = max a (min value b) /\
   clamp value a b = min b (max value a)) /\
  (b < a -> a <= value ->
   clamp value a b = b /\ max a (min value b) = a).
Proof.
  rewrite !min_Z_min, !max_Z_max. unfold clamp. rewrite Z.gtb_ltb.
  destruct (Z.ltb_spec value a); destruct (Z.ltb_spec b value); lia.
Qed.

Lemma clamp_min_max_witness :
  (clamp 7 0 5 = max 0 (min 7 5) /\ clamp 7 0 5 = min 5 (max 7 0)) /\
  (clamp 7 5 0 = 0 /\ max 5 (min 7 0) = 5).
Proof.
  destruct (clamp_min_max 7 0 5) as [H1 _].
  destruct (clamp_min_max 7 5 0) as [_ H2].
  split; [apply H1 | apply H2]; lia.
Defined.

(** The value of [random_int] when no [int] operation overflows. *)
Lemma random_int_value rand_value a b :
  is_sint 32 a -> is_sint 32 b -> a < b -> b - a + 1 <= INT32_MAX ->
  0 <= rand_value <= INT32_MAX ->
  random_int rand_value a b = Some (a + rand_value mod (b - a + 1)).
Proof.
  unfold INT32_MAX. change (2 ^ 31 - 1) with 2147483647.
  intros Ha Hb Hab Hn Hr.
  apply -> int32_bounds in Ha. apply -> int32_bounds in Hb.
  pose proof (Z.mod_pos_bound rand_value (b - a + 1) ltac:(lia)) as Hm.
  unfold random_int.
  destruct (Z.ltb_spec a b) as [_ | ?]; [| lia].
  assert (E1 : int32 (int32 (b - a) + 1) = b - a + 1).
  { int32_arith. }
  rewrite E1. destruct (Z.eqb_spec (b - a + 1) 0) as [? | _]; [lia |].
  rewrite Z.rem_mod_nonneg by lia.
  assert (E2 : int32 (a + rand_value mod (b - a + 1))
               = a + rand_value mod (b - a + 1)).
  { clear E1. int32_arith. }
  rewrite E2.
  destruct (Z.geb_spec (a + rand_value mod (b - a + 1)) a); [| lia].
  destruct (Z.leb_spec (a + rand_value mod (b - a + 1)) b); [| lia].
  reflexivity.
Qed.

(** X19: when [a < b], the width [b - a + 1] of the interval fits an
    [int] and [rand ()] returns a non-negative [int], [random_int]
    returns [a + rand_value mod (b - a + 1)], a value of [[a, b]]: none
    of its assertions fails. *)
Theorem random_int_in_range rand_value a b :
  is_sint 32 a -> is_sint 32 b -> a < b -> b - a + 1 <= INT32_MAX ->
  0 <= rand_value <= INT32_MAX ->
  exists result, random_int rand_value a b = Some result /\
                 result = a + rand_value mod (b - a + 1) /\
                 a <= result <= b.
Proof.
  intros Ha Hb Hab Hn Hr. exists (a + rand_value mod (b - a + 1)).
  split; [apply random_int_value; assumption | split; [reflexivity |]].
  pose proof (Z.mod_pos_bound rand_value (b - a + 1) ltac:(lia)). lia.
Qed.

Lemma random_int_in_range_witness :
  exists result, random_int 12345 (-3) 3 = Some result /\
                 result = -3 + 12345 mod (3 - -3 + 1) /\
                 -3 <= result <= 3.
Proof.
  apply random_int_in_range;
    unfold is_sint, INT32_MAX; simpl; lia.
Defined.

(** X20: which values [random_int] can return, when [rand ()] ranges
    over 0..[RAND_MAX]: every [v] of [[a, b]] with [v - a <= RAND_MAX] is
    returned, namely when [rand ()] returns [v - a]; every value that is
    returned lies in [[a, b]] and is at most [a + RAND_MAX]; so when the
    interval is wider than [RAND_MAX] its upper end [b] is never
    returned. *)
Theorem random_int_reaches RAND_MAX a b :
  is_sint 32 a -> is_sint 32 b -> a < b -> b - a + 1 <= INT32_MAX ->
  0 <= RAND_MAX <= INT32_MAX ->
  (forall v, a <= v <= b -> v - a <= RAND_MAX ->
     exists r, 0 <= r <= RAND_MAX /\ random_int r a b = Some v) /\
  (forall r v, 0 <= r <= RAND_MAX -> random_int r a b = Some v ->
     a <= v <= b /\ v <= a + RAND_MAX) /\
  (RAND_MAX < b - a ->
     forall r, 0 <= r <= RAND_MAX -> random_int r a b <> Some b).
Proof.
  intros Ha Hb Hab Hn HR.
  assert (Hret : forall r v, 0 <= r <= RAND_MAX ->
            random_int r a b = Some v -> a <= v <= b /\ v <= a + RAND_MAX).
  { intros r v Hr E.
    rewrite (random_int_value r a b Ha Hb Hab Hn ltac:(lia)) in E.
    injection E as <-.
    pose proof (Z.mod_pos_bound r (b - a + 1) ltac:(lia)) as Hm.
    pose proof (Z.mod_le r (b - a + 1) ltac:(lia) ltac:(lia)). lia. }
  split; [| split; [exact Hret |]].
  - intros v Hv Hreach. exists (v - a). split; [lia |].
    rewrite (random_int_value (v - a) a b Ha Hb Hab Hn ltac:(lia)).
    rewrite Z.mod_small by lia. f_equal. lia.
  - intros Hwide r Hr E. destruct (Hret r b Hr E). lia.
Qed.

Lemma random_int_reaches_witness :
  (exists r, 0 <= r <= 32767 /\ random_int r (-3) 3 = Some 2) /\
  random_int 5 0 100000 <> Some 100000.
Proof.
  split.
  - destruct (random_int_reaches 32767 (-3) 3) as (Hreach & _ & _);
      try (unfold is_sint, INT32_MAX; simpl; lia).
    apply Hreach; lia.
  - destruct (random_int_reaches 32767 0 100000) as (_ & _ & Hwide);
      try (unfold is_sint, INT32_MAX; simpl; lia).
    apply Hwide; lia.
Defined.

(** ** The portable population count *)

Lemma lor_disjoint_add b v :
  is_uint 8 b -> Z.lor b (Z.shiftl v 8) = b + 256 * v.
Proof.
  intros Hb.
  assert (D : Z.land b (Z.shiftl v 8) = 0).
  { apply Z.bits_inj'. intros i Hi.
    rewrite Z.land_spec, Z.shiftl_spec, Z.bits_0 by exact Hi.
    destruct (Z.lt_ge_cases i 8).
    - rewrite (Z.testbit_neg_r v (i - 8)) by lia. apply andb_false_r.
    - rewrite (testbit_above 8 b i Hb) by lia. reflexivity. }
  rewrite <- (Z.lxor_lor _ _ D), <- (Z.add_nocarry_lxor _ _ D).
  rewrite Z.shiftl_mul_pow2 by lia. change (2 ^ 8) with 256. lia.
Qed.

Lemma le_value_le_sum bs :
  Forall (is_uint 8) bs -> le_value bs = le_sum bs.
Proof.
  induction 1 as [| b bs Hb Hbs IH]; cbn [le_value le_sum].
  - reflexivity.
  - rewrite (lor_disjoint_add b _ Hb), IH. reflexivity.
Qed.

Lemma lane_range (g : Z -> Z) x :
  (forall y, is_uint 8 (g y)) ->
  is_uint 32 (le_value (map g (le_bytes 4 x))).
Proof.
  intros Hg. apply (le_value_range (map g (le_bytes 4 x))).
  apply Forall_forall. intros y Hy. apply in_map_iff in Hy.
  destruct Hy as (z & <- & _). apply Hg.
Qed.

Ltac lane_bits :=
  apply (uint_bits_ext 32);
  [ lia
  | apply is_uint_land_r; [lia | unfold is_uint; lia]
  | apply lane_range; intros y; apply is_uint_land_r;
      [lia | unfold is_uint; lia]
  | cbn [le_bytes map le_value]; each_bit 32%nat ].

Lemma lane_pairs x :
  Z.land (Z.shiftr x 1) 0x55555555
  = le_value (map (fun y => Z.land (Z.shiftr y 1) 0x55) (le_bytes 4 x)).
Proof. lane_bits. Qed.

Lemma lane_nibbles_high x :
  Z.land (Z.shiftr x 2) 0x33333333
  = le_value (map (fun y => Z.land (Z.shiftr y 2) 0x33) (le_bytes 4 x)).
Proof. lane_bits. Qed.

Lemma lane_nibbles_low x :
  Z.land x 0x33333333
  = le_value (map (fun y => Z.land y 0x33) (le_bytes 4 x)).
Proof. lane_bits. Qed.

Lemma lane_low_nibble x :
  Z.land x 0x0f0f0f0f
  = le_value (map (fun y => Z.land y 0x0f) (le_bytes 4 x)).
Proof. lane_bits. Qed.

Ltac forall_bytes tac :=
  repeat (apply Forall_cons; [tac |]); apply Forall_nil.

Lemma popcount8_facts y :
  is_uint 8 y ->
  0 <= pairs8 y < 256 /\
  0 <= nibbles8 (pairs8 y) /\
  nibbles8 (pairs8 y) / 16 <= 4 /\ nibbles8 (pairs8 y) mod 16 <= 4 /\
  popcount8 y = count_ones 8 y.
Proof.
  intros Hy.
  assert (H : popcount8_checks y = true).
  { apply (Z_below_forallb popcount8_checks 256);
      [vm_compute; reflexivity | exact Hy]. }
  unfold popcount8_checks in H.
  rewrite !andb_true_iff, !Z.leb_le, Z.ltb_lt, Z.eqb_eq in H. tauto.
Qed.

Lemma le_sum4 b0 b1 b2 b3 :
  le_sum [b0; b1; b2; b3] = b0 + 256 * b1 + 65536 * b2 + 16777216 * b3.
Proof. cbn [le_sum]. lia. Qed.

Lemma le_bytes_le_sum4 b0 b1 b2 b3 :
  is_uint 8 b0 -> is_uint 8 b1 -> is_uint 8 b2 -> is_uint 8 b3 ->
  le_bytes 4 (le_sum [b0; b1; b2; b3]) = [b0; b1; b2; b3].
Proof.
  intros H0 H1 H2 H3.
  assert (Hb : Forall (is_uint 8) [b0; b1; b2; b3]) by (forall_bytes assumption).
  rewrite <- (le_value_le_sum _ Hb).
  exact (le_bytes_le_value _ Hb).
Qed.

Lemma uint8_bounds y : is_uint 8 y <-> 0 <= y < 256.
Proof. unfold is_uint. change (2 ^ 8) with 256. tauto. Qed.

Lemma land_mask_bounds v m w :
  0 <= w -> is_uint w m -> 0 <= Z.land v m < 2 ^ w.
Proof. intros Hw Hm. exact (is_uint_land_r w v m Hw Hm). Qed.

(** First step: every bit pair holds its own bit count. *)
Lemma popcount_stage_pairs x0 x1 x2 x3 :
  is_uint 8 x0 -> is_uint 8 x1 -> is_uint 8 x2 -> is_uint 8 x3 ->
  let x := le_sum [x0; x1; x2; x3] in
  uint32 (x - Z.land (Z.shiftr x 1) 0x55555555)
  = le_sum [pairs8 x0; pairs8 x1; pairs8 x2; pairs8 x3].
Proof.
  intros H0 H1 H2 H3 x.
  rewrite lane_pairs. unfold x at 2.
  rewrite (le_bytes_le_sum4 _ _ _ _ H0 H1 H2 H3). cbn [map].
  rewrite le_value_le_sum
    by (forall_bytes ltac:(apply is_uint_land_r; [lia | unfold is_uint; lia])).
  destruct (popcount8_facts x0 H0) as [B0 _].
  destruct (popcount8_facts x1 H1) as [B1 _].
  destruct (popcount8_facts x2 H2) as [B2 _].
  destruct (popcount8_facts x3 H3) as [B3 _].
  unfold x. rewrite !le_sum4. unfold pairs8 in *.
  unfold uint32, uint. change (2 ^ 32) with 4294967296.
  rewrite Z.mod_small; lia.
Qed.

(** Second step: every nibble holds its own bit count. *)
Lemma popcount_stage_nibbles a0 a1 a2 a3 :
  is_uint 8 a0 -> is_uint 8 a1 -> is_uint 8 a2 -> is_uint 8 a3 ->
  let a := le_sum [a0; a1; a2; a3] in
  uint32 (Z.land (Z.shiftr a 2) 0x33333333 + Z.land a 0x33333333)
  = le_sum [nibbles8 a0; nibbles8 a1; nibbles8 a2; nibbles8 a3].
Proof.
  intros H0 H1 H2 H3 a.
  rewrite lane_nibbles_high, lane_nibbles_low. unfold a.
  rewrite (le_bytes_le_sum4 _ _ _ _ H0 H1 H2 H3). cbn [map].
  rewrite !le_value_le_sum
    by (forall_bytes ltac:(apply is_uint_land_r; [lia | unfold is_uint; lia])).
  rewrite !le_sum4. unfold nibbles8.
  pose proof (fun v => land_mask_bounds v 0x33 6 ltac:(lia) ltac:(unfold is_uint; lia)) as Hm.
  change (2 ^ 6) with 64 in Hm.
  pose proof (Hm (Z.shiftr a0 2)). pose proof (Hm a0).
  pose proof (Hm (Z.shiftr a1 2)). pose proof (Hm a1).
  pose proof (Hm (Z.shiftr a2 2)). pose proof (Hm a2).
  pose proof (Hm (Z.shiftr a3 2)). pose proof (Hm a3).
  unfold uint32, uint. change (2 ^ 32) with 4294967296.
  rewrite Z.mod_small; lia.
Qed.

(** Third step: every byte holds its own bit count, the sum of the counts
    of its two nibbles. *)
Lemma popcount_stage_bytes b0 b1 b2 b3 :
  0 <= b0 -> b0 / 16 <= 4 -> b0 mod 16 <= 4 ->
  0 <= b1 -> b1 / 16 <= 4 -> b1 mod 16 <= 4 ->
  0 <= b2 -> b2 / 16 <= 4 -> b2 mod 16 <= 4 ->
  0 <= b3 -> b3 / 16 <= 4 -> b3 mod 16 <= 4 ->
  let b := le_sum [b0; b1; b2; b3] in
  Z.land (uint32 (Z.shiftr b 4 + b)) 0x0f0f0f0f
  = le_sum [b0 / 16 + b0 mod 16; b1 / 16 + b1 mod 16;
            b2 / 16 + b2 mod 16; b3 / 16 + b3 mod 16].
Proof.
  intros P0 Q0 R0 P1 Q1 R1 P2 Q2 R2 P3 Q3 R3 b.
  assert (Ht : uint32 (Z.shiftr b 4 + b)
    = le_sum [b0 / 16 + b0 mod 16 + 16 * (b0 / 16 + b1 mod 16);
              b1 / 16 + b1 mod 16 + 16 * (b1 / 16 + b2 mod 16);
              b2 / 16 + b2 mod 16 + 16 * (b2 / 16 + b3 mod 16);
              b3 / 16 + b3 mod 16 + 16 * (b3 / 16)]).
  { rewrite Z.shiftr_div_pow2 by lia. change (2 ^ 4) with 16.
    unfold b. rewrite !le_sum4.
    unfold uint32, uint. change (2 ^ 32) with 4294967296.
    Z.div_mod_to_equations. lia. }
  rewrite Ht. rewrite lane_low_nibble.
  rewrite le_bytes_le_sum4
    by (apply uint8_bounds; Z.div_mod_to_equations; lia).
  cbn [map]. change 0x0f with (Z.ones 4). rewrite !Z.land_ones by lia.
  change (2 ^ 4) with 16.
  rewrite le_value_le_sum
    by (forall_bytes ltac:(apply uint8_bounds; Z.div_mod_to_equations; lia)).
  rewrite !le_sum4.
  Z.div_mod_to_equations. lia.
Qed.

(** Last steps: the four byte counts are added up. *)
Lemma popcount_stage_total c0 c1 c2 c3 :
  0 <= c0 <= 8 -> 0 <= c1 <= 8 -> 0 <= c2 <= 8 -> 0 <= c3 <= 8 ->
  let c := le_sum [c0; c1; c2; c3] in
  let d := uint32 (c + Z.shiftr c 8) in
  let e := uint32 (d + Z.shiftr d 16) in
  Z.land e 0x0000003f = c0 + c1 + c2 + c3.
Proof.
  intros H0 H1 H2 H3 c d e.
  change 0x0000003f with (Z.ones 6). rewrite Z.land_ones by lia.
  change (2 ^ 6) with 64.
  assert (Ec : c = c0 + 256 * c1 + 65536 * c2 + 16777216 * c3)
    by apply le_sum4.
  assert (Ed : d = c0 + c1 + 256 * (c1 + c2) + 65536 * (c2 + c3)
                   + 16777216 * c3).
  { unfold d. rewrite Z.shiftr_div_pow2 by lia. change (2 ^ 8) with 256.
    rewrite <- (Z.div_unique c 256 (c1 + 256 * c2 + 65536 * c3) c0) by lia.
    unfold uint32, uint. change (2 ^ 32) with 4294967296.
    rewrite Z.mod_small; lia. }
  assert (Ee : e = c0 + c1 + c2 + c3 + 256 * (c1 + c2 + c3)
                   + 65536 * (c2 + c3) + 16777216 * c3).
  { unfold e. rewrite Z.shiftr_div_pow2 by lia. change (2 ^ 16) with 65536.
    rewrite <- (Z.div_unique d 65536 (c2 + c3 + 256 * c3)
                  (c0 + c1 + 256 * (c1 + c2))) by lia.
    unfold uint32, uint. change (2 ^ 32) with 4294967296.
    rewrite Z.mod_small; lia. }
  symmetry.
  apply Z.mod_unique
    with (q := 4 * (c1 + c2 + c3) + 1024 * (c2 + c3) + 262144 * c3); lia.
Qed.

Lemma count_ones_bounds n x : 0 <= count_ones n x <= Z.of_nat n.
Proof.
  induction n as [| n IH]; cbn [count_ones]; [lia |].
  destruct (Z.testbit x (Z.of_nat n)); simpl Z.b2z; lia.
Qed.

(** The set bits of a 32-bit value are those of its four bytes. *)
Lemma count_ones_bytes x :
  count_ones 32 x
  = count_ones 8 (Z.land x 0xff)
    + count_ones 8 (Z.land (Z.shiftr x 8) 0xff)
    + count_ones 8 (Z.land (Z.shiftr (Z.shiftr x 8) 8) 0xff)
    + count_ones 8 (Z.land (Z.shiftr (Z.shiftr (Z.shiftr x 8) 8) 8) 0xff).
Proof.
  cbn [count_ones]. repeat bit_step. rewrite !andb_true_r. lia.
Qed.

Lemma popcount_portable_count_ones x :
  is_uint 32 x -> popcount false x = count_ones 32 x.
Proof.
  intros Hx. rewrite count_ones_bytes.
  pose proof (le_value_le_bytes 4 x Hx) as Ex.
  pose proof (le_bytes_are_bytes 4 x) as Hb.
  cbn [le_bytes] in Ex, Hb.
  remember (Z.land x 0xff) as x0 eqn:E0.
  remember (Z.land (Z.shiftr x 8) 0xff) as x1 eqn:E1.
  remember (Z.land (Z.shiftr (Z.shiftr x 8) 8) 0xff) as x2 eqn:E2.
  remember (Z.land (Z.shiftr (Z.shiftr (Z.shiftr x 8) 8) 8) 0xff)
    as x3 eqn:E3.
  clear E0 E1 E2 E3.
  inversion_clear Hb as [| ? ? H0 Hb1].
  inversion_clear Hb1 as [| ? ? H1 Hb2].
  inversion_clear Hb2 as [| ? ? H2 Hb3].
  inversion_clear Hb3 as [| ? ? H3 _].
  rewrite le_value_le_sum in Ex by (forall_bytes assumption).
  destruct (popcount8_facts x0 H0) as (A0 & P0 & Q0 & R0 & C0).
  destruct (popcount8_facts x1 H1) as (A1 & P1 & Q1 & R1 & C1).
  destruct (popcount8_facts x2 H2) as (A2 & P2 & Q2 & R2 & C2).
  destruct (popcount8_facts x3 H3) as (A3 & P3 & Q3 & R3 & C3).
  pose proof (popcount_stage_pairs x0 x1 x2 x3 H0 H1 H2 H3) as SA.
  pose proof (popcount_stage_nibbles (pairs8 x0) (pairs8 x1) (pairs8 x2)
                (pairs8 x3) A0 A1 A2 A3) as SB.
  pose proof (popcount_stage_bytes _ _ _ _
                P0 Q0 R0 P1 Q1 R1 P2 Q2 R2 P3 Q3 R3) as SC.
  assert (B0 : 0 <= popcount8 x0 <= 8)
    by (unfold popcount8; Z.div_mod_to_equations; lia).
  assert (B1 : 0 <= popcount8 x1 <= 8)
    by (unfold popcount8; Z.div_mod_to_equations; lia).
  assert (B2 : 0 <= popcount8 x2 <= 8)
    by (unfold popcount8; Z.div_mod_to_equations; lia).
  assert (B3 : 0 <= popcount8 x3 <= 8)
    by (unfold popcount8; Z.div_mod_to_equations; lia).
  pose proof (popcount_stage_total _ _ _ _ B0 B1 B2 B3) as SD.
  fold (popcount8 x0) (popcount8 x1) (popcount8 x2) (popcount8 x3) in SC.
  cbv zeta in SA, SB, SC, SD.
  rewrite <- C0, <- C1, <- C2, <- C3, <- SD, <- SC, <- SB, <- SA, Ex.
  reflexivity.
Qed.

(** X21: on every [uint32_t] value the portable [popcount] returns the
    number of bits that are set, as [__builtin_popcount] does: the two
    paths agree, and the result is between 0 and 32. *)
Theorem popcount_counts_bits gnuc x :
  is_uint 32 x ->
  popcount gnuc x = count_ones 32 x /\
  popcount false x = popcount true x /\
  0 <= popcount gnuc x <= 32.
Proof.
  intros Hx. pose proof (popcount_portable_count_ones x Hx) as Hp.
  pose proof (count_ones_bounds 32 x) as Hc. simpl Z.of_nat in Hc.
  split; [| split].
  - destruct gnuc; [reflexivity | exact Hp].
  - exact Hp.
  - destruct gnuc; [exact Hc | rewrite Hp; exact Hc].
Qed.

Lemma popcount_counts_bits_witness :
  popcount false 0xF0F00F01 = count_ones 32 0xF0F00F01 /\
  popcount false 0xF0F00F01 = popcount true 0xF0F00F01 /\
  0 <= popcount false 0xF0F00F01 <= 32.
Proof.
  apply popcount_counts_bits. unfold is_uint. lia.
Defined.

(** X22: the compile-time constants agree with the run-time functions:
    [PopCount<x>::result] is the number of set bits of [x], and for
    [x > 0] [Log2<x>::result] is the position of its highest set bit. *)
Theorem PopCount_Log2_values gnuc x :
  is_uint 32 x ->
  PopCount x = count_ones 32 x /\
  PopCount x = popcount gnuc x /\
  (0 < x -> Log2 x = Z.log2 x /\ Log2 x = log2 gnuc x).
Proof.
  intros Hx. rewrite PopCount_popcount, Log2_log2.
  pose proof (popcount_portable_count_ones x Hx) as Hp.
  split; [exact Hp | split].
  - destruct gnuc; [exact Hp | reflexivity].
  - intros Hpos. rewrite !log2_correct by assumption. split; reflexivity.
Qed.

Lemma PopCount_Log2_values_witness :
  PopCount 0x80000001 = count_ones 32 0x80000001 /\
  PopCount 0x80000001 = popcount true 0x80000001 /\
  (0 < 0x80000001 ->
   Log2 0x80000001 = Z.log2 0x80000001 /\
   Log2 0x80000001 = log2 true 0x80000001).
Proof.
  apply PopCount_Log2_values. unfold is_uint. lia.
Defined.

(** X23: [bits_required] needs exactly [k] bits for the range from 0 to
    [2 ^ k - 1] and one more for the range from 0 to [2 ^ k], on either
    path. *)
Theorem bits_required_power_of_two gnuc k :
  (1 <= k <= 32 -> bits_required gnuc 0 (2 ^ k - 1) = Some k) /\
  (0 <= k <= 31 -> bits_required gnuc 0 (2 ^ k) = Some (k + 1)).
Proof.
  split; intros Hk.
  - assert (Hp : 2 ^ k = 2 * 2 ^ (k - 1)).
    { rewrite <- Z.pow_succ_r by lia. f_equal. lia. }
    assert (Hq : 0 < 2 ^ (k - 1)) by (apply Z.pow_pos_nonneg; lia).
    assert (Hr : 2 ^ k <= 2 ^ 32) by (apply Z.pow_le_mono_r; lia).
    assert (Hu : uint32 (2 ^ k - 1 - 0) = 2 ^ k - 1).
    { rewrite Z.sub_0_r. unfold uint32. apply uint_small.
      unfold is_uint. lia. }
    rewrite bits_required_value; rewrite Hu; [| lia].
    rewrite (Z.log2_unique (2 ^ k - 1) (k - 1)); [f_equal; lia | lia |].
    replace (Z.succ (k - 1)) with k by lia. lia.
  - assert (Hq : 0 < 2 ^ k) by (apply Z.pow_pos_nonneg; lia).
    assert (Hr : 2 ^ k <= 2 ^ 31) by (apply Z.pow_le_mono_r; lia).
    assert (Hu : uint32 (2 ^ k - 0) = 2 ^ k).
    { rewrite Z.sub_0_r. unfold uint32. apply uint_small.
      unfold is_uint. lia. }
    rewrite bits_required_value; rewrite Hu; [| lia].
    rewrite Z.log2_pow2 by lia. reflexivity.
Qed.

Lemma bits_required_power_of_two_witness :
  bits_required true 0 (2 ^ 8 - 1) = Some 8 /\
  bits_required true 0 (2 ^ 8) = Some (8 + 1).
Proof.
  destruct (bits_required_power_of_two true 8) as [H1 H2].
  split; [apply H1 | apply H2]; lia.
Defined.

(** X24: a wider range never needs fewer bits: for [min <= max <= max']
    with [min < max], the result for [[min, max']] is at least the
    result for [[min, max]], on either path. *)
Theorem bits_required_monotone gnuc min max max' :
  is_uint 32 min -> is_uint 32 max -> is_uint 32 max' ->
  min < max -> max <= max' ->
  exists k k', bits_required gnuc min max = Some k /\
               bits_required gnuc min max' = Some k' /\ k <= k'.
Proof.
  intros Hmin Hmax Hmax' Hlt Hle.
  assert (Hu : uint32 (max - min) = max - min).
  { unfold uint32. apply uint_small. unfold is_uint in *. lia. }
  assert (Hu' : uint32 (max' - min) = max' - min).
  { unfold uint32. apply uint_small. unfold is_uint in *. lia. }
  exists (Z.log2 (max - min) + 1), (Z.log2 (max' - min) + 1).
  rewrite !bits_required_value; rewrite ?Hu, ?Hu'; try lia.
  split; [reflexivity | split; [reflexivity |]].
  pose proof (Z.log2_le_mono (max - min) (max' - min)). lia.
Qed.

Lemma bits_required_monotone_witness :
  exists k k', bits_required false 10 20 = Some k /\
               bits_required false 10 300 = Some k' /\ k <= k'.
Proof.
  apply bits_required_monotone; unfold is_uint; lia.
Defined.
